(** * G1 full-GC compaction task (g1FullGCCompactTask.cpp)

    A shallow embedding of the compaction phase of G1's full collection:
    the per-object relocator [G1CompactRegionClosure::apply], the region
    compactor [compact_region], the handler of regions that skip
    compaction, the pinned-region resetter [G1ResetPinnedClosure] and the
    two drivers [work] and [serial_compaction].

    Conventions.
    - An address is a [Z] counting [HeapWord]s, the unit of [HeapWord*]
      arithmetic in the source; [NULL] is 0.  One heap word stands for
      [HeapWordSize] bytes, and [byte_at] gives the byte view of a memory.
    - A [HeapRegion*] is the index of the region in the region table.
    - An [assert] of the source aborts the VM in a debug build and is
      compiled away in a product build; the build is the flag [ASSERT].
    - The [trace] component of the state is ghost: it records which
      operation completed on which region and has no effect on the run.
    - The task calls into the heap, the bitmap, the regions and the objects
      through functions that are not in g1FullGCCompactTask.cpp.  Their
      definitions here follow the design document and say so.
    - The workers run in parallel.  A cycle is modelled with the workers
      one after the other in any order ([full_cycle]) and with their
      per-region steps interleaved in any way ([interleaved_cycle]); a step
      on one region is atomic. *)

From Stdlib Require Import ZArith Lia Bool.
From stdpp Require Import base list strings.

Local Open Scope Z_scope.

(** ** Results of a run *)

Inductive Result (A : Type) : Type :=
  | Ok (a : A)
  | AssertionFailure (msg : string)
  | InvalidRegion
  | OutOfFuel.

Arguments Ok {A} a.
Arguments AssertionFailure {A} msg.
Arguments InvalidRegion {A}.
Arguments OutOfFuel {A}.

Definition bind {A B : Type} (r : Result A) (k : A -> Result B) : Result B :=
  match r with
  | Ok a => k a
  | AssertionFailure msg => AssertionFailure msg
  | InvalidRegion => InvalidRegion
  | OutOfFuel => OutOfFuel
  end.

Notation "'do' x <- r ; k" := (bind r (fun x => k))
  (at level 10, x name, r at level 100, k at level 200).
Notation "'do' ( x , y ) <- r ; k" := (bind r (fun p => let '(x, y) := p in k))
  (at level 10, x name, y name, r at level 100, k at level 200).
Notation "r ;;; k" := (bind r (fun _ => k))
  (at level 100, k at level 200, right associativity).

(** ** Build and command-line flags read by the task *)

Record Flags : Type := mkFlags {
  ASSERT : bool;              (* debug build: asserts are compiled in *)
  G1VerifyBitmaps : bool;
  MarkSweepDeadRatio : Z      (* uintx: never negative *)
}.

(** [assert(cond, msg)] *)
Definition assert (fl : Flags) (cond : bool) (msg : string) : Result unit :=
  if ASSERT fl && negb cond then AssertionFailure msg else Ok tt.

(** ** Heap memory *)

Definition Memory : Type := Z -> Z.

Definition NULL : Z := 0.
Definition HeapWordSize : Z := 8.

(** The byte at byte address [b] of a memory of heap words (little endian). *)
Definition byte_at (m : Memory) (b : Z) : Z :=
  Z.land (Z.shiftr (m (b / HeapWordSize)) (8 * (b mod HeapWordSize))) 255.

(** The memory after the store of word [v] at address [a]. *)
Definition store (m : Memory) (a v : Z) : Memory :=
  fun x => if x =? a then v else m x.

(** The [count] words from address [from] on. *)
Fixpoint read_words (m : Memory) (from : Z) (count : nat) : list Z :=
  match count with
  | O => []
  | S n => m from :: read_words m (from + 1) n
  end.

(** The memory after the store of the words [ws] from address [to] on. *)
Fixpoint write_words (m : Memory) (to : Z) (ws : list Z) : Memory :=
  match ws with
  | [] => m
  | w :: ws' => write_words (store m to w) (to + 1) ws'
  end.

(** Modelled from the spec: [Copy::aligned_conjoint_words(from, to, count)]
    (utilities/copy.hpp is not part of the sources).  The spec asks for a
    word-aligned copy that is right when the two ranges overlap (a memmove):
    the [count] source words are all read before the destination is written. *)
Definition aligned_conjoint_words (from to : Z) (count : nat) (m : Memory) : Memory :=
  write_words m to (read_words m from count).

(** ** Objects *)

(** Modelled from the spec: the object layout of oops/oop.inline.hpp, which
    is not part of the sources.  An object has a self-describing size of at
    least one heap word ([oopDesc::size]); its first word is the header (mark
    word), which before this phase holds the forwarding pointer, decoded by
    [decode_pointer]; [prototype_mark] is the canonical header that
    [init_mark] installs. *)
Class ObjectModel : Type := {
  oop_size : Memory -> Z -> nat;
  decode_pointer : Z -> Z;
  prototype_mark : Z;
  oop_size_pos : forall m obj, (1 <= oop_size m obj)%nat
}.

Section Objects.
Context {OM : ObjectModel}.

(** Modelled from the spec: [oopDesc::mark], the header is the first word. *)
Definition mark (m : Memory) (obj : Z) : Z := m obj.

(** Modelled from the spec: [oopDesc::forwardee], the forwarding pointer
    stored in the header; [NULL] when the object does not move. *)
Definition forwardee (m : Memory) (obj : Z) : Z := decode_pointer (mark m obj).

(** Modelled from the spec: [oopDesc::klass], the class pointer lives in the
    word next to the header. *)
Definition klass (m : Memory) (obj : Z) : Z := m (obj + 1).

(** Modelled from the spec: [oopDesc::init_mark] reinitializes the header,
    and only the header. *)
Definition init_mark (obj : Z) (m : Memory) : Memory := store m obj prototype_mark.

(** [G1FullGCCompactTask::G1CompactRegionClosure::apply] *)
Definition apply (fl : Flags) (m : Memory) (obj : Z) : Result (nat * Memory) :=
  let size := oop_size m obj in
  let destination := forwardee m obj in
  if destination =? NULL then
    (* Object not moving *)
    Ok (size, m)
  else
    (* copy object and reinit its mark *)
    let obj_addr := obj in
    assert fl (negb (obj_addr =? destination))
           "everything in this pass should be moving" ;;;
    let m1 := aligned_conjoint_words obj_addr destination size m in
    let m2 := init_mark destination m1 in
    assert fl (negb (klass m2 destination =? NULL)) "should have a class" ;;;
    Ok (size, m2).

End Objects.

(** ** Heap regions *)

(** Modelled from the spec: the per-cycle outcome of a region, the state
    machine of the design: [Unprocessed] on entry, then one of the three
    terminal outcomes. *)
Inductive RegionState : Type :=
  | Unprocessed
  | Compacted
  | Skipped
  | PinnedReset.

Global Instance RegionState_eq_dec : EqDecision RegionState.
Proof. solve_decision. Defined.

(** Modelled from the spec: the fields of [HeapRegion] that this phase
    reads or writes (gc/g1/heapRegion.hpp is not part of the sources). *)
Record HeapRegion : Type := mkHeapRegion {
  bottom : Z;
  hr_end : Z;
  top : Z;
  compaction_top : Z;
  top_at_mark_start : Z;
  is_pinned : bool;
  is_humongous : bool;
  is_starts_humongous : bool;
  state : RegionState
}.

(** Ghost events: [EvSet hr s] the terminal flag [s] of region [hr] was
    set, [EvVisit hr] the heap iteration handed region [hr] to its closure,
    [EvLogTask w] worker [w] emitted its timing record. *)
Inductive Event : Type :=
  | EvSet (hr : nat) (s : RegionState)
  | EvVisit (hr : nat)
  | EvLogTask (worker_id : nat).

(** The collector state this phase works on. *)
Record G1State : Type := mkState {
  heap : Memory;                 (* the Java heap, in heap words *)
  mark_bitmap : Z -> bool;       (* collector()->mark_bitmap() *)
  regions : list HeapRegion;     (* the region table *)
  claims : nat -> bool;          (* _claimer: which regions are claimed *)
  trace : list Event             (* ghost *)
}.

Definition set_heap (m : Memory) (st : G1State) : G1State :=
  mkState m (mark_bitmap st) (regions st) (claims st) (trace st).
Definition set_mark_bitmap (bm : Z -> bool) (st : G1State) : G1State :=
  mkState (heap st) bm (regions st) (claims st) (trace st).
Definition set_regions (rs : list HeapRegion) (st : G1State) : G1State :=
  mkState (heap st) (mark_bitmap st) rs (claims st) (trace st).
Definition set_claims (c : nat -> bool) (st : G1State) : G1State :=
  mkState (heap st) (mark_bitmap st) (regions st) c (trace st).
Definition log (e : Event) (st : G1State) : G1State :=
  mkState (heap st) (mark_bitmap st) (regions st) (claims st) (trace st ++ [e]).

(** Dereference of a [HeapRegion*]. *)
Definition region_at (st : G1State) (hr : nat) : Result HeapRegion :=
  match regions st !! hr with
  | Some r => Ok r
  | None => InvalidRegion
  end.

Definition set_state (s : RegionState) (r : HeapRegion) : HeapRegion :=
  mkHeapRegion (bottom r) (hr_end r) (top r) (compaction_top r)
    (top_at_mark_start r) (is_pinned r) (is_humongous r)
    (is_starts_humongous r) s.

(** Modelled from the spec: [HeapRegion::reset_compacted_after_full_gc]
    (gc/g1/heapRegion.inline.hpp is not part of the sources) flips the region to compacted and resets the compaction bookkeeping:
    the top of allocation collapses to the new top (the compaction top) and,
    by the comment in [compact_region], the TAMS moves to [bottom()]. *)
Definition after_compaction (r : HeapRegion) : HeapRegion :=
  mkHeapRegion (bottom r) (hr_end r) (compaction_top r) (compaction_top r)
    (bottom r) (is_pinned r) (is_humongous r) (is_starts_humongous r) Compacted.

Definition reset_compacted_after_full_gc (hr : nat) (st : G1State) : Result G1State :=
  do r <- region_at st hr;
  Ok (log (EvSet hr Compacted)
        (set_regions (<[hr := after_compaction r]> (regions st)) st)).

(** Modelled from the spec:
    [HeapRegion::reset_no_compaction_region_during_compaction] resets the
    region state to "not compacted, but cycle-processed". *)
Definition reset_no_compaction_region_during_compaction (hr : nat) (st : G1State)
  : Result G1State :=
  do r <- region_at st hr;
  Ok (log (EvSet hr Skipped) (set_regions (<[hr := set_state Skipped r]> (regions st)) st)).

(** Modelled from the spec: [HeapRegion::reset_pinned_after_full_gc] resets
    the post-cycle bookkeeping of a pinned region; the region stays pinned. *)
Definition reset_pinned_after_full_gc (hr : nat) (st : G1State) : Result G1State :=
  do r <- region_at st hr;
  Ok (log (EvSet hr PinnedReset)
        (set_regions (<[hr := set_state PinnedReset r]> (regions st)) st)).

(** ** The liveness bitmap *)

(** Modelled from the spec: [G1CMBitMap::is_marked]. *)
Definition is_marked (bm : Z -> bool) (addr : Z) : bool := bm addr.

(** Modelled from the spec: [G1CMBitMap::clear_range], no address from [lo]
    up to [hi] is marked any more. *)
Definition clear_range (lo hi : Z) (bm : Z -> bool) : Z -> bool :=
  fun a => if (lo <=? a) && (a <? hi) then false else bm a.

(** Modelled from the spec: [G1CMBitMap::clear_region] clears the bits of
    the region, the addresses from [bottom()] up to [end()]. *)
Definition clear_region (hr : nat) (st : G1State) : Result G1State :=
  do r <- region_at st hr;
  Ok (set_mark_bitmap (clear_range (bottom r) (hr_end r) (mark_bitmap st)) st).

(** ** The plan handed over by the earlier phases *)

(** Modelled from the spec: what [collector()] gives to this phase
    (gc/g1/g1FullCollector.hpp is not part of the sources): the number of
    workers, the compaction queue and the skip-compaction set of every
    worker, the queue of the serial pass, and the offset at which the
    claimer [_claimer] of the task lets each worker start its walk of the
    heap.  Regions are named by their index in the region table. *)
Record Collector : Type := mkCollector {
  workers : nat;
  compaction_point : nat -> list nat;
  skipping_compaction_set : nat -> list nat;
  serial_compaction_point : list nat;
  claimer_offset : nat -> nat
}.

(** A loop over a [GrowableArray<HeapRegion*>] from [begin()] to [end()]. *)
Fixpoint for_each (body : nat -> G1State -> Result G1State) (q : list nat)
    (st : G1State) : Result G1State :=
  match q with
  | [] => Ok st
  | hr :: q' => do st1 <- body hr st; for_each body q' st1
  end.

(** Modelled from the spec: [HeapRegionClaimer::is_region_claimed]. *)
Definition is_region_claimed (st : G1State) (index : nat) : bool := claims st index.

(** Modelled from the spec: [HeapRegionClaimer::claim_region], on a region
    that is not claimed yet.  The claim is one atomic step. *)
Definition claim_region (index : nat) (st : G1State) : G1State :=
  set_claims (fun i => if (i =? index)%nat then true else claims st i) st.

(** Modelled from the spec: the loop of the heap iteration
    ([HeapRegionManager::par_iterate], not part of the sources) over the
    counts still to do: a region that is already claimed is passed over, any
    other is claimed and handed to the closure, and a closure that answers
    [true] ends the walk. *)
Fixpoint par_iterate (cl : nat -> G1State -> Result (bool * G1State))
    (n_regions start_index : nat) (counts : list nat) (st : G1State)
    : Result G1State :=
  match counts with
  | [] => Ok st
  | count :: counts' =>
      let index := ((start_index + count) mod n_regions)%nat in
      if is_region_claimed st index then
        par_iterate cl n_regions start_index counts' st
      else
        do (res, st1) <- cl index (log (EvVisit index) (claim_region index st));
        if (res : bool) then Ok st1
        else par_iterate cl n_regions start_index counts' st1
  end.

(** Modelled from the spec:
    [G1CollectedHeap::heap_region_par_iterate_from_worker_offset]
    (gc/g1/g1CollectedHeap.hpp is not part of the sources).  All workers
    walk all the regions of the heap, each from the offset that the claimer
    gives it ([HeapRegionClaimer::offset]), and the shared claimer gives
    every region to exactly one of them. *)
Definition heap_region_par_iterate_from_worker_offset
    (cl : nat -> G1State -> Result (bool * G1State))
    (hrclaimer_offset : nat -> nat) (worker_id : nat) (st : G1State)
    : Result G1State :=
  let n_regions := length (regions st) in
  par_iterate cl n_regions (hrclaimer_offset worker_id) (seq 0 n_regions) st.

(** Modelled from the spec: [log_task] emits the timing record of the
    worker; the time itself is not modelled. *)
Definition log_task (worker_id : nat) (st : G1State) : G1State :=
  log (EvLogTask worker_id) st.

Section Task.
Context {OM : ObjectModel}.
Variable fl : Flags.

(** Modelled from the spec: the walk of [HeapRegion::apply_to_marked_objects]
    from [next_addr] up to [limit].  A marked address is an object, which the
    closure processes and whose size it returns; that size gives the next
    address.  An unmarked address is stepped over.  The fuel bounds the number
    of turns of the loop. *)
Fixpoint scan_marked (fuel : nat) (bm : Z -> bool) (limit next_addr : Z)
    (m : Memory) : Result Memory :=
  if limit <=? next_addr then Ok m
  else
    match fuel with
    | O => OutOfFuel
    | S fuel' =>
        if is_marked bm next_addr then
          do (size, m1) <- apply fl m next_addr;
          scan_marked fuel' bm limit (next_addr + Z.of_nat size) m1
        else
          scan_marked fuel' bm limit (next_addr + 1) m
    end.

(** Modelled from the spec: [HeapRegion::apply_to_marked_objects]
    (gc/g1/heapRegion.inline.hpp is not part of the sources) visits the live
    objects of the region between [bottom()] and [top()], in increasing
    address order as the bitmap records them. *)
Definition apply_to_marked_objects (hr : nat) (st : G1State) : Result G1State :=
  do r <- region_at st hr;
  do m1 <- scan_marked (Z.to_nat (top r - bottom r)) (mark_bitmap st) (top r)
             (bottom r) (heap st);
  Ok (set_heap m1 st).

(** [G1ResetPinnedClosure::do_heap_region] *)
Definition do_heap_region (r : nat) (st : G1State) : Result (bool * G1State) :=
  do hr <- region_at st r;
  if negb (is_pinned hr) then Ok (false, st)
  else
    assert fl (negb (is_starts_humongous hr)
               || is_marked (mark_bitmap st) (bottom hr))
           "must be, otherwise reclaimed earlier" ;;;
    do st1 <- reset_pinned_after_full_gc r st;
    Ok (false, st1).

(** [G1FullGCCompactTask::compact_region] *)
Definition compact_region (hr : nat) (st : G1State) : Result G1State :=
  do r <- region_at st hr;
  assert fl (negb (is_pinned r))
         "Should be no pinned region in compaction queue" ;;;
  assert fl (negb (is_humongous r))
         "Should be no humongous regions in compaction queue" ;;;
  do st1 <- apply_to_marked_objects hr st;
  (* Clear the liveness information for this region if necessary i.e. if we
     actually look at it for bitmap verification. Otherwise it is sufficient
     that we move the TAMS to bottom(). *)
  do st2 <- (if G1VerifyBitmaps fl then clear_region hr st1 else Ok st1);
  reset_compacted_after_full_gc hr st2.

(** [G1FullGCCompactTask::process_skipping_compaction_region] *)
Definition process_skipping_compaction_region (hr : nat) (st : G1State)
  : Result G1State :=
  do st1 <- clear_region hr st;
  reset_no_compaction_region_during_compaction hr st1.

(** [G1FullGCCompactTask::work] *)
Definition work (c : Collector) (worker_id : nat) (st : G1State) : Result G1State :=
  (* Ticks start = Ticks::now(): the clock is not modelled *)
  let compaction_queue := compaction_point c worker_id in
  do st1 <- for_each compact_region compaction_queue st;
  do st2 <- (if 0 <? MarkSweepDeadRatio fl then
               let skipping_compaction_queue := skipping_compaction_set c worker_id in
               for_each process_skipping_compaction_region skipping_compaction_queue st1
             else Ok st1);
  do st3 <- heap_region_par_iterate_from_worker_offset do_heap_region
              (claimer_offset c) worker_id st2;
  Ok (log_task worker_id st3).

(** [G1FullGCCompactTask::serial_compaction] *)
Definition serial_compaction (c : Collector) (st : G1State) : Result G1State :=
  (* GCTraceTime tm("Phase 4: Serial Compaction", ...): not modelled *)
  let compaction_queue := serial_compaction_point c in
  for_each compact_region compaction_queue st.

(** A compaction cycle in which the workers of [schedule] run [work] one
    after the other, and then the serial pass runs alone.  (The steps of the
    workers are interleaved in [interleaved_cycle] below.) *)
Definition full_cycle (c : Collector) (schedule : list nat) (st : G1State)
  : Result G1State :=
  do st1 <- for_each (work c) schedule st;
  serial_compaction c st1.

End Task.

(** ** A concrete object layout, for running the model *)

(** The size of an object in words is the low byte of its class word (at
    least one), the header holds the forwarding pointer as it is, and the
    canonical header is 1. *)
Definition test_layout : ObjectModel.
Proof.
  refine {|
    oop_size := fun m obj => Z.to_nat (Z.max 1 (Z.land (m (obj + 1)) 255));
    decode_pointer := fun w => w;
    prototype_mark := 1
  |}.
  intros m obj. lia.
Defined.

(** A memory from a list of words laid out from address [base]; every other
    word is 0. *)
Definition memory_of (base : Z) (ws : list Z) : Memory :=
  fun a => if (base <=? a) && (a <? base + Z.of_nat (length ws))
           then nth (Z.to_nat (a - base)) ws 0 else 0.

(** ** Reading the ghost trace *)

(** The terminal flags written along a trace, as pairs of region and flag,
    in the order of the writes. *)
Fixpoint writes (tr : list Event) : list (nat * RegionState) :=
  match tr with
  | [] => []
  | EvSet hr s :: tr' => (hr, s) :: writes tr'
  | _ :: tr' => writes tr'
  end.

(** The terminal flags that region [hr] received along a trace. *)
Definition outcomes (hr : nat) (tr : list Event) : list RegionState :=
  map snd (filter (fun w => fst w = hr) (writes tr)).

(** The regions a walk of the heap iteration claims, in the order of the
    walk, given the claims [c] it starts from. *)
Fixpoint claimed_slice (c : nat -> bool) (n_regions start_index : nat)
    (counts : list nat) : list nat :=
  match counts with
  | [] => []
  | count :: counts' =>
      let index := ((start_index + count) mod n_regions)%nat in
      if c index then claimed_slice c n_regions start_index counts'
      else index :: claimed_slice (fun i => if (i =? index)%nat then true else c i)
                      n_regions start_index counts'
  end.

(** The slice of the heap that worker [worker_id] claims in state [st]. *)
Definition worker_slice (hrclaimer_offset : nat -> nat) (worker_id : nat)
    (st : G1State) : list nat :=
  let n_regions := length (regions st) in
  claimed_slice (claims st) n_regions (hrclaimer_offset worker_id)
    (seq 0 n_regions).

Definition pinned_at (st : G1State) (hr : nat) : bool :=
  match regions st !! hr with
  | Some r => is_pinned r
  | None => false
  end.

(** What the pinned-region resetter leaves in the trace for one region. *)
Definition reset_pinned_events (st : G1State) (hr : nat) : list Event :=
  EvVisit hr :: (if pinned_at st hr then [EvSet hr PinnedReset] else []).

(** ** Plans that the earlier phases may hand over *)

(** All the regions that the plan assigns to a queue or a skip set. *)
Definition assigned (c : Collector) : list nat :=
  flat_map (compaction_point c) (seq 0 (workers c))
  ++ serial_compaction_point c
  ++ flat_map (skipping_compaction_set c) (seq 0 (workers c)).

(** The plan partitions the heap: no region is assigned twice, every
    assigned region exists, the regions left out are exactly the pinned
    ones, and skip sets are only filled under a positive dead-space
    tolerance. *)
Record valid_plan (fl : Flags) (c : Collector) (st : G1State) : Prop := {
  plan_workers : (0 < workers c)%nat;
  plan_nodup : NoDup (assigned c);
  plan_in_heap : forall hr, hr ∈ assigned c -> (hr < length (regions st))%nat;
  plan_pinned : forall hr, (hr < length (regions st))%nat ->
                  (pinned_at st hr = true <-> hr ∉ assigned c);
  plan_skip : MarkSweepDeadRatio fl <= 0 ->
                flat_map (skipping_compaction_set c) (seq 0 (workers c)) = []
}.

(** The claimer is fresh at the start of a cycle. *)
Definition fresh_claimer (st : G1State) : Prop :=
  forall i, (i < length (regions st))%nat -> claims st i = false.

(** ** How a run changes the region table *)

(** [evolves st tr st']: the trace grew by [tr], the region table kept its
    length and every region its pinned flag, a region that received a
    terminal flag along [tr] carries the last one it received, and any other
    region is as it was. *)
Definition evolves (st : G1State) (tr : list Event) (st' : G1State) : Prop :=
  trace st' = trace st ++ tr /\
  length (regions st') = length (regions st) /\
  forall i r, regions st !! i = Some r ->
    exists r', regions st' !! i = Some r' /\
      is_pinned r' = is_pinned r /\
      match last (outcomes i tr) with
      | Some s => state r' = s
      | None => r' = r
      end.

(** ** What a run of a worker leaves in the trace *)

(** The region indices that a walk of the heap iteration goes through. *)
Definition walk_indices (n_regions start_index : nat) (counts : list nat) : list nat :=
  map (fun count => ((start_index + count) mod n_regions)%nat) counts.

(** The events of [work]: the regions of the compaction queue compacted in
    queue order, then (under a positive dead-space tolerance) the regions of
    the skip set skipped, then the regions of the claimed slice visited by
    the pinned-region resetter, then the timing record. *)
Definition work_events (fl : Flags) (c : Collector) (worker_id : nat)
    (st : G1State) : list Event :=
  map (fun hr => EvSet hr Compacted) (compaction_point c worker_id)
  ++ (if 0 <? MarkSweepDeadRatio fl
      then map (fun hr => EvSet hr Skipped) (skipping_compaction_set c worker_id)
      else [])
  ++ flat_map (reset_pinned_events st) (worker_slice (claimer_offset c) worker_id st)
  ++ [EvLogTask worker_id].

(** A run that ends, either with a result or, in a debug build only, on a
    failed assertion: it neither runs out of fuel nor follows a region
    pointer out of the region table. *)
Definition ends {A : Type} (fl : Flags) (r : Result A) : Prop :=
  match r with
  | Ok _ => True
  | AssertionFailure _ => ASSERT fl = true
  | InvalidRegion => False
  | OutOfFuel => False
  end.

(** The skip set that [work] drains for a worker: the worker's skip set
    under a positive dead-space tolerance, nothing otherwise. *)
Definition drained_skip_set (fl : Flags) (c : Collector) (worker_id : nat) : list nat :=
  if 0 <? MarkSweepDeadRatio fl then skipping_compaction_set c worker_id else [].

(** The regions that the workers of a schedule compact or skip, in the
    order of the schedule. *)
Definition schedule_regions (fl : Flags) (c : Collector) (schedule : list nat)
  : list nat :=
  flat_map (fun w => compaction_point c w ++ drained_skip_set fl c w) schedule.

(** ** The region steps of the workers, interleaved *)

(** The workers run in parallel.  Each of them goes through a sequence of
    steps, every step on one region: the compaction of a region of its
    queue, the handling of a region of its skip set, the attempt to claim a
    region of the heap for the pinned-region resetter, and at last its
    timing record. *)
Inductive Task : Type :=
  | TaskCompact (hr : nat)
  | TaskSkip (hr : nat)
  | TaskResetPinned (index : nat)
  | TaskLog (worker_id : nat).

Global Instance Task_eq_dec : EqDecision Task.
Proof. solve_decision. Defined.

Section Tasks.
Context {OM : ObjectModel}.
Variable fl : Flags.

(** One step.  The step of the heap iteration is the body of the loop of
    [par_iterate] for the pinned-region resetter. *)
Definition run_task (t : Task) (st : G1State) : Result G1State :=
  match t with
  | TaskCompact hr => compact_region fl hr st
  | TaskSkip hr => process_skipping_compaction_region hr st
  | TaskResetPinned index =>
      if is_region_claimed st index then Ok st
      else
        do (res, st1) <- do_heap_region fl index
                           (log (EvVisit index) (claim_region index st));
        Ok st1
  | TaskLog worker_id => Ok (log_task worker_id st)
  end.

Fixpoint run_tasks (ts : list Task) (st : G1State) : Result G1State :=
  match ts with
  | [] => Ok st
  | t :: ts' => do st1 <- run_task t st; run_tasks ts' st1
  end.

(** The steps of [work] for one worker, in the order of [work], over a heap
    of [n_regions] regions. *)
Definition worker_tasks (c : Collector) (n_regions worker_id : nat) : list Task :=
  map TaskCompact (compaction_point c worker_id)
  ++ map TaskSkip (drained_skip_set fl c worker_id)
  ++ map TaskResetPinned
       (walk_indices n_regions (claimer_offset c worker_id) (seq 0 n_regions))
  ++ [TaskLog worker_id].

(** A parallel cycle whose region steps happened in the order [ts],
    followed by the serial pass. *)
Definition interleaved_cycle (c : Collector) (ts : list Task) (st : G1State)
  : Result G1State :=
  do st1 <- run_tasks ts st;
  serial_compaction fl c st1.

End Tasks.

(** [interleaving ls xs]: [xs] takes the elements of the lists [ls], each
    list in its own order, in any alternation of the lists. *)
Inductive interleaving {A : Type} : list (list A) -> list A -> Prop :=
  | interleaving_done ls : Forall (fun l => l = []) ls -> interleaving ls []
  | interleaving_step ls1 x l ls2 xs :
      interleaving (ls1 ++ l :: ls2) xs ->
      interleaving (ls1 ++ (x :: l) :: ls2) (x :: xs).

(** The regions that a list of steps compacts or skips. *)
Definition task_regions (ts : list Task) : list nat :=
  flat_map (fun t => match t with
                     | TaskCompact hr => [hr]
                     | TaskSkip hr => [hr]
                     | _ => []
                     end) ts.

(** The terminal flag, if any, that a step writes in state [st]. *)
Definition task_writes (st : G1State) (t : Task) : list (nat * RegionState) :=
  match t with
  | TaskCompact hr => [(hr, Compacted)]
  | TaskSkip hr => [(hr, Skipped)]
  | TaskResetPinned index =>
      if claims st index then []
      else if pinned_at st index then [(index, PinnedReset)] else []
  | TaskLog _ => []
  end.

(** What a cycle promises: the run [r] from [st] ends, and when it returns
    every region has received exactly one terminal flag, which is the state
    it holds: pinned-reset for a pinned region, skipped for a region of a
    skip set, compacted for any other. *)
Definition exactly_one_outcome (fl : Flags) (c : Collector) (st : G1State)
    (r : Result G1State) : Prop :=
  ends fl r /\
  forall st', r = Ok st' ->
    exists tr, trace st' = trace st ++ tr /\
      forall i r0, regions st !! i = Some r0 ->
        exists r', regions st' !! i = Some r' /\
          outcomes i tr = [state r'] /\
          state r' =
            if is_pinned r0 then PinnedReset
            else if decide (i ∈ flat_map (skipping_compaction_set c)
                                  (seq 0 (workers c)))
                 then Skipped else Compacted.

(** The region of a step is in a heap of [n_regions] regions. *)
Definition task_in_heap (n_regions : nat) (t : Task) : Prop :=
  match t with
  | TaskCompact hr => (hr < n_regions)%nat
  | TaskSkip hr => (hr < n_regions)%nat
  | TaskResetPinned index => (index < n_regions)%nat
  | TaskLog _ => True
  end.

(** ** A small heap, for running the model *)

Definition debug_build : Flags := mkFlags true false 5.
Definition product_build : Flags := mkFlags false true 0.

(** One object of three words at address 10, forwarded one word down to
    address 9: source and destination overlap. *)
Definition sliding_memory : Memory := memory_of 10 [9; 3; 7].

(** One object of three words at address 10 that does not move. *)
Definition resting_memory : Memory := memory_of 10 [0; 3; 7].

(** Four regions of ten words.  Region 0 holds three objects of 2, 3 and 1
    words (16, 24 and 8 bytes) at 100, 102 and 105; the second is dead, the
    first stays and the third is forwarded to 102, so that the live objects
    end up packed from the base of the region, up to 103.  Region 1 is
    pinned and starts a humongous object, which is marked.  Region 2 is to
    be skipped and region 3 is empty. *)
Definition test_heap : Memory := memory_of 100 [0; 2; 0; 3; 77; 102].

Definition test_bitmap : Z -> bool :=
  fun a => (a =? 100) || (a =? 105) || (a =? 110) || (a =? 120).

Definition test_regions : list HeapRegion :=
  [ mkHeapRegion 100 110 106 103 106 false false false Unprocessed;
    mkHeapRegion 110 120 120 110 120 true true true Unprocessed;
    mkHeapRegion 120 130 128 120 128 false false false Unprocessed;
    mkHeapRegion 130 140 130 130 130 false false false Unprocessed ].

Definition test_state : G1State :=
  mkState test_heap test_bitmap test_regions (fun _ => false) [].

(** Two workers: worker 0 compacts region 0, worker 1 skips region 2, and
    region 3 is left to the serial pass. *)
Definition test_plan : Collector :=
  mkCollector 2
    (fun w => match w with O => [0%nat] | _ => [] end)
    (fun w => match w with 1%nat => [2%nat] | _ => [] end)
    [3%nat]
    (fun w => (2 * w)%nat).

(** A closure that stops the heap iteration at the first region it is given. *)
Definition stop_at_once (r : nat) (st : G1State) : Result (bool * G1State) :=
  Ok (true, st).

(** One object of three words at address 10 whose forwarding pointer is its
    own address: a move that moves nothing. *)
Definition self_forwarded_memory : Memory := memory_of 10 [10; 3; 7].

(** An interleaving of the region steps of the two workers of [test_plan]:
    worker 1 skips region 2 while worker 0 compacts region 0, and the two
    walk the heap in turns. *)
Definition test_interleaving : list Task :=
  [ TaskSkip 2; TaskCompact 0;
    TaskResetPinned 2; TaskResetPinned 0;
    TaskResetPinned 3; TaskResetPinned 1;
    TaskResetPinned 0; TaskResetPinned 2;
    TaskResetPinned 1; TaskLog 1;
    TaskResetPinned 3; TaskLog 0 ]%nat.

(** ** The live objects of a region and where they go *)

Section Walk.
Context {OM : ObjectModel}.

(** The objects that the walk of [scan_marked] meets when the sizes are read
    in memory [m]: the marked addresses from [next_addr] up to [limit], each
    one past the end of the object before it. *)
Fixpoint walk_objects (fuel : nat) (bm : Z -> bool) (limit next_addr : Z)
    (m : Memory) : list Z :=
  if limit <=? next_addr then []
  else
    match fuel with
    | O => []
    | S fuel' =>
        if is_marked bm next_addr then
          next_addr
          :: walk_objects fuel' bm limit
               (next_addr + Z.of_nat (oop_size m next_addr)) m
        else walk_objects fuel' bm limit (next_addr + 1) m
    end.

(** Where [apply] leaves an object: at its forwarding pointer, or where it
    is when the forwarding pointer is null. *)
Definition destination_of (m : Memory) (obj : Z) : Z :=
  if forwardee m obj =? NULL then obj else forwardee m obj.

(** The objects [objs], in this order, slide down from [frontier] on: each
    goes to an address that is not above its own and not below the end of
    the object placed before it.  In a debug build an object that moves
    passes the assertions of [apply]. *)
Fixpoint slides_down (fl : Flags) (m : Memory) (frontier : Z) (objs : list Z)
    : Prop :=
  match objs with
  | [] => True
  | obj :: objs' =>
      frontier <= destination_of m obj /\
      destination_of m obj <= obj /\
      (ASSERT fl = true -> forwardee m obj <> NULL ->
         forwardee m obj <> obj /\ (2 <= oop_size m obj)%nat /\
         klass m obj <> NULL) /\
      slides_down fl m (destination_of m obj + Z.of_nat (oop_size m obj)) objs'
  end.

(** The end of the last object placed, when [objs] are placed from
    [frontier] on. *)
Fixpoint frontier_after (m : Memory) (frontier : Z) (objs : list Z) : Z :=
  match objs with
  | [] => frontier
  | obj :: objs' =>
      frontier_after m (destination_of m obj + Z.of_nat (oop_size m obj)) objs'
  end.

(** Object [obj] of memory [m] is in place in memory [m']: its words are at
    its destination, under a fresh header when it has moved and under its
    own header when it has not. *)
Definition placed (m m' : Memory) (obj : Z) : Prop :=
  m' (destination_of m obj)
    = (if forwardee m obj =? NULL then m obj else prototype_mark) /\
  forall k, 1 <= k < Z.of_nat (oop_size m obj) ->
    m' (destination_of m obj + k) = m (obj + k).

End Walk.

(** A region of eight words with three objects: two words at 200 that stay,
    two dead words at 202, and three words at 204 forwarded to 202, over
    their own first word. *)
Definition sliding_heap : Memory := memory_of 200 [0; 2; 0; 2; 202; 3; 42].

Definition sliding_state : G1State :=
  mkState sliding_heap (fun a => (a =? 200) || (a =? 204))
    [mkHeapRegion 200 208 207 205 207 false false false Unprocessed]
    (fun _ => false) [].

(** Address [a] is one of the addresses of region [hr], from [bottom()] up
    to [end()]. *)
Definition extent_of (st : G1State) (hr : nat) (a : Z) : bool :=
  match regions st !! hr with
  | Some r => (bottom r <=? a) && (a <? hr_end r)
  | None => false
  end.

Section QueueWalk.
Context {OM : ObjectModel}.

(** The live objects of region [hr], as the walk of [compact_region] meets
    them in state [st]. *)
Definition region_objects (st : G1State) (hr : nat) : list Z :=
  match regions st !! hr with
  | Some r =>
      walk_objects (Z.to_nat (top r - bottom r)) (mark_bitmap st) (top r)
        (bottom r) (heap st)
  | None => []
  end.

(** The regions of the queue [q] lie one above the other in the order of the
    queue, and their live objects, taken in that order as state [st] has
    them, slide down from [frontier] on. *)
Fixpoint queue_slides (fl : Flags) (st : G1State) (frontier : Z) (q : list nat)
    : Prop :=
  match q with
  | [] => True
  | hr :: q' =>
      match regions st !! hr with
      | Some r =>
          (ASSERT fl = true -> is_pinned r = false /\ is_humongous r = false) /\
          frontier <= bottom r /\
          slides_down fl (heap st) frontier (region_objects st hr) /\
          Forall (fun j => j <> hr /\
                    match regions st !! j with
                    | Some rj => hr_end r <= bottom rj
                    | None => True
                    end) q' /\
          queue_slides fl st
            (frontier_after (heap st) frontier (region_objects st hr)) q'
      | None => False
      end
  end.

(** The end of the last object placed by the compaction of the queue. *)
Fixpoint queue_frontier (st : G1State) (frontier : Z) (q : list nat) : Z :=
  match q with
  | [] => frontier
  | hr :: q' =>
      queue_frontier st
        (frontier_after (heap st) frontier (region_objects st hr)) q'
  end.

End QueueWalk.

(** Two regions of eight words, the second above the first.  The first
    holds two words that stay and two words forwarded to 302; the second
    holds three words forwarded to 304, into the first region. *)
Definition queue_heap : Memory :=
  memory_of 300 [0; 2; 0; 0; 302; 2; 0; 0; 0; 304; 3; 55].

Definition queue_state : G1State :=
  mkState queue_heap (fun a => (a =? 300) || (a =? 304) || (a =? 309))
    [mkHeapRegion 300 308 306 307 306 false false false Unprocessed;
     mkHeapRegion 308 316 312 308 312 false false false Unprocessed]
    (fun _ => false) [].

(** One object of one word at address 12, forwarded to address 10, whose
    class word is null and lands on a null word. *)
Definition classless_memory : Memory := memory_of 10 [0; 0; 10; 0].

(** The same build without its assertions. *)
Definition without_asserts (fl : Flags) : Flags :=
  mkFlags false (G1VerifyBitmaps fl) (MarkSweepDeadRatio fl).

(** ** Memory lemmas *)

Lemma store_eq m a v : store m a v a = v.
Proof. unfold store. now rewrite Z.eqb_refl. Qed.

Lemma store_ne m a v x : x <> a -> store m a v x = m x.
Proof. intros H. unfold store. destruct (Z.eqb_spec x a); congruence. Qed.

Lemma write_words_outside ws : forall m to a,
  a < to \/ to + Z.of_nat (length ws) <= a -> write_words m to ws a = m a.
Proof.
  induction ws as [|w ws IH]; intros m to a Ha; simpl in *; [reflexivity|].
  rewrite IH by lia. apply store_ne. lia.
Qed.

Lemma write_words_inside ws : forall m to (i : nat),
  (i < length ws)%nat -> write_words m to ws (to + Z.of_nat i) = nth i ws 0.
Proof.
  induction ws as [|w ws IH]; intros m to i Hi; simpl in *; [lia|].
  destruct i as [|i].
  - rewrite Z.add_0_r, write_words_outside by lia. apply store_eq.
  - replace (to + Z.of_nat (S i)) with (to + 1 + Z.of_nat i) by lia.
    apply IH. lia.
Qed.

Lemma read_words_length m count : forall from, length (read_words m from count) = count.
Proof. induction count as [|n IH]; intros from; simpl; [reflexivity|]. now rewrite IH. Qed.

Lemma read_words_nth m count : forall from (i : nat),
  (i < count)%nat -> nth i (read_words m from count) 0 = m (from + Z.of_nat i).
Proof.
  induction count as [|n IH]; intros from i Hi; simpl; [lia|].
  destruct i as [|i].
  - now rewrite Z.add_0_r.
  - rewrite IH by lia. f_equal. lia.
Qed.

(** The copy is overlap safe: the destination holds the old source words. *)
Lemma aligned_conjoint_words_inside from to count m (i : nat) :
  (i < count)%nat ->
  aligned_conjoint_words from to count m (to + Z.of_nat i) = m (from + Z.of_nat i).
Proof.
  intros Hi. unfold aligned_conjoint_words.
  rewrite write_words_inside by (now rewrite read_words_length).
  now apply read_words_nth.
Qed.

Lemma aligned_conjoint_words_outside from to count m a :
  a < to \/ to + Z.of_nat count <= a ->
  aligned_conjoint_words from to count m a = m a.
Proof.
  intros Ha. unfold aligned_conjoint_words.
  apply write_words_outside. now rewrite read_words_length.
Qed.

Lemma byte_at_word m m' a a' b :
  0 <= b < HeapWordSize -> m' a' = m a ->
  byte_at m' (HeapWordSize * a' + b) = byte_at m (HeapWordSize * a + b).
Proof.
  intros Hb Hw. unfold byte_at, HeapWordSize in *.
  replace ((8 * a' + b) / 8) with a' by (apply (Z.div_unique _ 8 a' b); lia).
  replace ((8 * a + b) / 8) with a by (apply (Z.div_unique _ 8 a b); lia).
  replace ((8 * a' + b) mod 8) with b by (apply (Z.mod_unique _ 8 a' b); lia).
  replace ((8 * a + b) mod 8) with b by (apply (Z.mod_unique _ 8 a b); lia).
  now rewrite Hw.
Qed.

Lemma assert_ok fl cond msg :
  (ASSERT fl = true -> cond = true) -> assert fl cond msg = Ok tt.
Proof.
  intros H. unfold assert. destruct (ASSERT fl); simpl; [|reflexivity].
  now rewrite H.
Qed.

Lemma assert_cases fl cond msg :
  (assert fl cond msg = Ok tt /\ (ASSERT fl = false \/ cond = true)) \/
  (assert fl cond msg = AssertionFailure msg /\ ASSERT fl = true /\ cond = false).
Proof. unfold assert. destruct (ASSERT fl), cond; simpl; auto. Qed.

Section ObjectFacts.
Context {OM : ObjectModel}.

(** With at least two words, the class word travels with the object. *)
Lemma klass_after_move m obj dest size :
  (2 <= size)%nat ->
  klass (init_mark dest (aligned_conjoint_words obj dest size m)) dest = klass m obj.
Proof.
  intros Hs. unfold klass, init_mark.
  rewrite store_ne by lia.
  apply (aligned_conjoint_words_inside obj dest size m 1). lia.
Qed.

(** C1: for an object with a non-null forwarding pointer (and, in a debug
    build, passing the two defensive assertions), [apply] copies the
    [size] words of the object to the destination and then reinitializes
    the header there: the call returns the size, the header at the
    destination is the canonical one, every other word and byte of the
    object at the destination is the original one, and nothing outside the
    destination range changes. *)
Theorem apply_relocates fl m obj :
  let size := oop_size m obj in
  let dest := forwardee m obj in
  dest <> NULL ->
  (ASSERT fl = true ->
     obj <> dest /\
     klass (init_mark dest (aligned_conjoint_words obj dest size m)) dest <> NULL) ->
  exists m',
    apply fl m obj = Ok (size, m') /\
    m' = init_mark dest (aligned_conjoint_words obj dest size m) /\
    mark m' dest = prototype_mark /\
    (forall i, 1 <= i < Z.of_nat size -> m' (dest + i) = m (obj + i)) /\
    (forall b, HeapWordSize <= b < HeapWordSize * Z.of_nat size ->
       byte_at m' (HeapWordSize * dest + b) = byte_at m (HeapWordSize * obj + b)) /\
    (forall a, a < dest \/ dest + Z.of_nat size <= a -> a <> dest -> m' a = m a).
Proof.
  intros size dest Hfwd Hdbg.
  assert (Hwords : forall i, 1 <= i < Z.of_nat size ->
            init_mark dest (aligned_conjoint_words obj dest size m) (dest + i)
            = m (obj + i)).
  { intros i Hi. unfold init_mark. rewrite store_ne by lia.
    replace i with (Z.of_nat (Z.to_nat i)) by lia.
    apply aligned_conjoint_words_inside. lia. }
  eexists. split; [|split; [reflexivity|]].
  - unfold apply. fold size dest.
    destruct (Z.eqb_spec dest NULL) as [E|_]; [contradiction|].
    rewrite assert_ok; simpl.
    + rewrite assert_ok; simpl; [reflexivity|].
      intros Ha. destruct (Hdbg Ha) as [_ Hk].
      now destruct (Z.eqb_spec
        (klass (init_mark dest (aligned_conjoint_words obj dest size m)) dest) NULL).
    + intros Ha. destruct (Hdbg Ha) as [Hne _].
      now destruct (Z.eqb_spec obj dest).
  - split; [apply store_eq|]. split; [exact Hwords|]. split.
    + intros b Hb. unfold HeapWordSize in Hb.
      replace b with (HeapWordSize * (b / 8) + b mod 8)
        by (unfold HeapWordSize; pose proof (Z.div_mod b 8); lia).
      rewrite !Z.add_assoc, <- !Z.mul_add_distr_l.
      apply byte_at_word.
      * unfold HeapWordSize. apply Z.mod_pos_bound. lia.
      * apply Hwords. split.
        -- apply Z.div_le_lower_bound; lia.
        -- apply Z.div_lt_upper_bound; lia.
    + intros a Ha Hne. unfold init_mark. rewrite store_ne by exact Hne.
      now apply aligned_conjoint_words_outside.
Qed.

(** C2: an object whose forwarding pointer is null is not copied: [apply]
    returns its size and the very memory it was given, header included. *)
Theorem apply_stationary fl m obj :
  forwardee m obj = NULL -> apply fl m obj = Ok (oop_size m obj, m).
Proof.
  intros H. unfold apply. rewrite H. reflexivity.
Qed.

(** C7: [apply] stops on the assertion "everything in this pass should be
    moving" exactly when asserts are compiled in and a move is requested
    (non-null forwarding pointer) whose destination is the object's own
    address.  So in a debug build a no-op move is signalled, and a move to a
    distinct destination, as well as any call in a product build, never
    reaches that failure. *)
Theorem apply_self_move_assert fl m obj :
  apply fl m obj = AssertionFailure "everything in this pass should be moving"
  <-> (ASSERT fl = true /\ forwardee m obj <> NULL /\ forwardee m obj = obj).
Proof.
  unfold apply.
  destruct (Z.eqb_spec (forwardee m obj) NULL) as [E|E].
  - split; [discriminate|]. intros (_ & H & _). contradiction.
  - destruct (assert_cases fl (negb (obj =? forwardee m obj))
               "everything in this pass should be moving") as [[-> H]|[-> [Ha Hc]]];
      simpl.
    + split.
      * destruct (assert_cases fl
          (negb (klass (init_mark (forwardee m obj)
             (aligned_conjoint_words obj (forwardee m obj) (oop_size m obj) m))
             (forwardee m obj) =? NULL)) "should have a class")
          as [[-> _]|[-> _]]; simpl; discriminate.
      * intros (Ha & _ & He). destruct H as [H|H]; [congruence|].
        rewrite <- He in H at 1. rewrite Z.eqb_refl in H. discriminate.
    + split; [|reflexivity]. intros _. repeat split; auto.
      apply negb_false_iff, Z.eqb_eq in Hc. congruence.
Qed.

End ObjectFacts.

(** ** Runs and their results *)

Lemma bind_Ok {A B} (r : Result A) (k : A -> Result B) b :
  bind r k = Ok b -> exists a, r = Ok a /\ k a = Ok b.
Proof. destruct r; simpl; intros H; try discriminate. eauto. Qed.

Lemma bind_assertion {A B} (r : Result A) (k : A -> Result B) msg :
  bind r k = AssertionFailure msg ->
  r = AssertionFailure msg \/ exists a, r = Ok a /\ k a = AssertionFailure msg.
Proof. destruct r; simpl; intros H; try discriminate; [right; eauto | left; congruence]. Qed.

Lemma region_at_Some st hr r : regions st !! hr = Some r -> region_at st hr = Ok r.
Proof. intros H. unfold region_at. now rewrite H. Qed.

Lemma region_at_Ok st hr r : region_at st hr = Ok r -> regions st !! hr = Some r.
Proof. unfold region_at. destruct (regions st !! hr); intros H; now inversion H. Qed.

Lemma region_at_not_assertion st hr msg : region_at st hr <> AssertionFailure msg.
Proof. unfold region_at. destruct (regions st !! hr); discriminate. Qed.

Ltac inv_bind H :=
  let a := fresh "a" in
  let Ha := fresh "H" a in
  apply bind_Ok in H; destruct H as (a & Ha & H).

(** ** The trace readers *)

Lemma writes_app tr1 tr2 : writes (tr1 ++ tr2) = writes tr1 ++ writes tr2.
Proof.
  induction tr1 as [|e tr1 IH]; simpl; [reflexivity|].
  destruct e; simpl; now rewrite ?IH.
Qed.

Lemma outcomes_app hr tr1 tr2 :
  outcomes hr (tr1 ++ tr2) = outcomes hr tr1 ++ outcomes hr tr2.
Proof. unfold outcomes. now rewrite writes_app, filter_app, map_app. Qed.

Lemma outcomes_set_eq hr s : outcomes hr [EvSet hr s] = [s].
Proof. unfold outcomes. simpl. rewrite filter_cons_True by reflexivity. reflexivity. Qed.

Lemma outcomes_set_ne hr i s : i <> hr -> outcomes i [EvSet hr s] = [].
Proof.
  intros H. unfold outcomes. simpl.
  rewrite filter_cons_False by (simpl; congruence). reflexivity.
Qed.

(** ** Evolution of the region table *)

Lemma evolves_refl st : evolves st [] st.
Proof.
  split; [now rewrite app_nil_r|]. split; [reflexivity|].
  intros i r Hr. exists r. split; [exact Hr|]. split; reflexivity.
Qed.

Lemma evolves_trans st tr1 st1 tr2 st2 :
  evolves st tr1 st1 -> evolves st1 tr2 st2 -> evolves st (tr1 ++ tr2) st2.
Proof.
  intros (Ht1 & Hl1 & Hr1) (Ht2 & Hl2 & Hr2).
  split; [now rewrite Ht2, Ht1, app_assoc|]. split; [congruence|].
  intros i r Hi.
  destruct (Hr1 i r Hi) as (r1 & Hi1 & Hp1 & Hs1).
  destruct (Hr2 i r1 Hi1) as (r2 & Hi2 & Hp2 & Hs2).
  exists r2. split; [exact Hi2|]. split; [congruence|].
  rewrite outcomes_app.
  destruct (outcomes i tr2) as [|s l] eqn:E2 using rev_ind.
  - rewrite app_nil_r. simpl in Hs2. subst r2. exact Hs1.
  - rewrite app_assoc, last_snoc. now rewrite last_snoc in Hs2.
Qed.

(** A step that leaves the region table alone and writes no flag. *)
Lemma evolves_quiet st tr st' :
  trace st' = trace st ++ tr -> regions st' = regions st -> writes tr = [] ->
  evolves st tr st'.
Proof.
  intros Ht Hr Hw. split; [exact Ht|]. split; [now rewrite Hr|].
  intros i r Hi. exists r. rewrite Hr. split; [exact Hi|]. split; [reflexivity|].
  unfold outcomes. now rewrite Hw.
Qed.

(** A step that sets the terminal flag of one region. *)
Lemma evolves_write st hr r r' s :
  regions st !! hr = Some r -> is_pinned r' = is_pinned r -> state r' = s ->
  evolves st [EvSet hr s]
    (log (EvSet hr s) (set_regions (<[hr := r']> (regions st)) st)).
Proof.
  intros Hr Hp Hs. split; [reflexivity|]. split; [apply length_insert|].
  intros i ri Hi. simpl.
  destruct (decide (i = hr)) as [->|Hne].
  - exists r'. rewrite list_lookup_insert_eq by (eapply lookup_lt_Some; eauto).
    split; [reflexivity|]. split; [congruence|].
    now rewrite outcomes_set_eq.
  - exists ri. rewrite list_lookup_insert_ne by congruence.
    split; [exact Hi|]. split; [reflexivity|].
    now rewrite outcomes_set_ne.
Qed.

Lemma evolves_pinned_at st tr st' hr :
  evolves st tr st' -> pinned_at st' hr = pinned_at st hr.
Proof.
  intros (_ & Hl & Hr). unfold pinned_at.
  destruct (regions st !! hr) as [r|] eqn:E.
  - destruct (Hr hr r E) as (r' & -> & Hp & _). exact Hp.
  - apply lookup_ge_None in E. rewrite <- Hl in E.
    apply lookup_ge_None in E. now rewrite E.
Qed.

Section TaskFacts.
Context {OM : ObjectModel}.
Variable fl : Flags.

(** ** The object relocator inside the region walk *)

Lemma apply_Ok_size m obj size m' :
  apply fl m obj = Ok (size, m') -> size = oop_size m obj.
Proof.
  unfold apply. destruct (forwardee m obj =? NULL); [congruence|].
  intros H. inv_bind H. inv_bind H. congruence.
Qed.

Lemma apply_product m obj :
  ASSERT fl = false -> exists m', apply fl m obj = Ok (oop_size m obj, m').
Proof.
  intros Hp. unfold apply, assert. rewrite Hp. simpl.
  destruct (forwardee m obj =? NULL); eauto.
Qed.

Lemma apply_failure m obj :
  (exists size m', apply fl m obj = Ok (size, m')) \/
  apply fl m obj = AssertionFailure "everything in this pass should be moving" \/
  apply fl m obj = AssertionFailure "should have a class".
Proof.
  unfold apply, assert. destruct (forwardee m obj =? NULL); [eauto|].
  destruct (ASSERT fl && negb (negb (obj =? forwardee m obj))); simpl; [auto|].
  match goal with |- context [if ?c then _ else _] => destruct c end; simpl; eauto.
Qed.

Lemma scan_marked_total (Hp : ASSERT fl = false) bm limit : forall fuel next_addr m,
  limit - next_addr <= Z.of_nat fuel ->
  exists m', scan_marked fl fuel bm limit next_addr m = Ok m'.
Proof.
  induction fuel as [|fuel IH]; intros next_addr m Hf; simpl;
    destruct (Z.leb_spec limit next_addr); eauto; try lia.
  destruct (is_marked bm next_addr).
  - destruct (apply_product m next_addr Hp) as [m1 ->]. simpl.
    apply IH. pose proof (oop_size_pos m next_addr). lia.
  - apply IH. lia.
Qed.

Lemma scan_marked_failure bm limit msg : forall fuel next_addr m,
  scan_marked fl fuel bm limit next_addr m = AssertionFailure msg ->
  msg = "everything in this pass should be moving" \/ msg = "should have a class".
Proof.
  induction fuel as [|fuel IH]; intros next_addr m; simpl;
    destruct (limit <=? next_addr); try discriminate.
  destruct (is_marked bm next_addr); [|apply IH].
  destruct (apply_failure m next_addr) as [(size & m' & ->)|[-> | ->]]; simpl.
  - apply IH.
  - intros H. left. congruence.
  - intros H. right. congruence.
Qed.

(** ** The three region handlers *)

Lemma apply_to_marked_objects_Ok hr st st1 :
  apply_to_marked_objects fl hr st = Ok st1 ->
  exists r m1, regions st !! hr = Some r /\
    scan_marked fl (Z.to_nat (top r - bottom r)) (mark_bitmap st) (top r)
      (bottom r) (heap st) = Ok m1 /\
    st1 = set_heap m1 st.
Proof.
  unfold apply_to_marked_objects. intros H.
  inv_bind H. inv_bind H. apply region_at_Ok in Ha.
  exists a, a0. split; [exact Ha|]. split; [exact Ha0|]. congruence.
Qed.


Lemma compact_region_step hr st r st1 :
  regions st !! hr = Some r ->
  (ASSERT fl = true -> is_pinned r = false /\ is_humongous r = false) ->
  apply_to_marked_objects fl hr st = Ok st1 ->
  compact_region fl hr st =
    Ok (mkState (heap st1)
          (if G1VerifyBitmaps fl
           then clear_range (bottom r) (hr_end r) (mark_bitmap st)
           else mark_bitmap st)
          (<[hr := after_compaction r]> (regions st))
          (claims st) (trace st ++ [EvSet hr Compacted])).
Proof.
  intros Hr Ha H1. unfold compact_region.
  rewrite (region_at_Some _ _ _ Hr). simpl.
  rewrite !assert_ok; simpl.
  2: { intros Hd. destruct (Ha Hd) as [_ ->]. reflexivity. }
  2: { intros Hd. destruct (Ha Hd) as [-> _]. reflexivity. }
  rewrite H1. simpl.
  destruct (apply_to_marked_objects_Ok _ _ _ H1) as (r0 & m1 & Hr0 & _ & ->).
  unfold clear_region, reset_compacted_after_full_gc, region_at. simpl.
  destruct (G1VerifyBitmaps fl); simpl; rewrite Hr; simpl; try rewrite Hr; reflexivity.
Qed.

Lemma compact_region_Ok hr st st' :
  compact_region fl hr st = Ok st' ->
  exists r st1, regions st !! hr = Some r /\
    (ASSERT fl = true -> is_pinned r = false /\ is_humongous r = false) /\
    apply_to_marked_objects fl hr st = Ok st1.
Proof.
  unfold compact_region. intros H.
  inv_bind H. apply region_at_Ok in Ha.
  inv_bind H. inv_bind H. inv_bind H.
  exists a, a2. split; [exact Ha|]. split; [|exact Ha2].
  intros Hd. unfold assert in Ha0, Ha1. rewrite Hd in Ha0, Ha1. simpl in *.
  destruct (is_pinned a); [discriminate|].
  destruct (is_humongous a); [discriminate|]. auto.
Qed.

Lemma process_skipping_step hr st r :
  regions st !! hr = Some r ->
  process_skipping_compaction_region hr st =
    Ok (mkState (heap st)
          (clear_range (bottom r) (hr_end r) (mark_bitmap st))
          (<[hr := set_state Skipped r]> (regions st))
          (claims st) (trace st ++ [EvSet hr Skipped])).
Proof.
  intros Hr. unfold process_skipping_compaction_region, clear_region,
    reset_no_compaction_region_during_compaction, region_at.
  rewrite Hr. simpl. rewrite Hr. reflexivity.
Qed.

Lemma process_skipping_Ok hr st st' :
  process_skipping_compaction_region hr st = Ok st' ->
  exists r, regions st !! hr = Some r.
Proof.
  unfold process_skipping_compaction_region, clear_region. intros H.
  inv_bind H. inv_bind Ha. apply region_at_Ok in Ha0. eauto.
Qed.

Lemma do_heap_region_step r st hr :
  regions st !! r = Some hr ->
  (ASSERT fl = true -> is_pinned hr = true ->
     is_starts_humongous hr = false \/ is_marked (mark_bitmap st) (bottom hr) = true) ->
  do_heap_region fl r st =
    Ok (false,
        if is_pinned hr
        then mkState (heap st) (mark_bitmap st)
               (<[r := set_state PinnedReset hr]> (regions st))
               (claims st) (trace st ++ [EvSet r PinnedReset])
        else st).
Proof.
  intros Hr Ha. unfold do_heap_region.
  rewrite (region_at_Some _ _ _ Hr). simpl.
  destruct (is_pinned hr) eqn:Hp; simpl; [|reflexivity].
  rewrite assert_ok; simpl.
  - unfold reset_pinned_after_full_gc, region_at. rewrite Hr. reflexivity.
  - intros Hd. destruct (Ha Hd eq_refl) as [-> | ->]; [reflexivity|].
    apply orb_true_r.
Qed.

Lemma do_heap_region_Ok r st b st' :
  do_heap_region fl r st = Ok (b, st') ->
  exists hr, regions st !! r = Some hr /\
    (ASSERT fl = true -> is_pinned hr = true ->
       is_starts_humongous hr = false \/ is_marked (mark_bitmap st) (bottom hr) = true).
Proof.
  unfold do_heap_region. intros H. inv_bind H. apply region_at_Ok in Ha.
  exists a. split; [exact Ha|]. intros Hd Hp. rewrite Hp in H. simpl in H.
  inv_bind H. unfold assert in Ha0. rewrite Hd in Ha0. simpl in Ha0.
  destruct (is_starts_humongous a); [|auto]. simpl in Ha0.
  destruct (is_marked (mark_bitmap st) (bottom a)); [auto|discriminate].
Qed.

End TaskFacts.

Section RegionClaims.
Context {OM : ObjectModel}.
Variable fl : Flags.

(** C5: once [compact_region] has processed the live objects of its region
    (the walk over the marked objects returned [st1]), it completes: the
    bits of the region are cleared in the bitmap when [G1VerifyBitmaps] is
    set and the bitmap is the one it was otherwise, and then the region is
    flipped to compacted with its top collapsed to the compaction top and
    its TAMS moved to bottom.  The heap words are those the walk left. *)
Theorem compact_region_finish hr st r st1 :
  regions st !! hr = Some r ->
  (ASSERT fl = true -> is_pinned r = false /\ is_humongous r = false) ->
  apply_to_marked_objects fl hr st = Ok st1 ->
  exists st',
    compact_region fl hr st = Ok st' /\
    heap st' = heap st1 /\
    (forall a, mark_bitmap st' a =
       if G1VerifyBitmaps fl && ((bottom r <=? a) && (a <? hr_end r))
       then false else mark_bitmap st1 a) /\
    (G1VerifyBitmaps fl = false -> mark_bitmap st' = mark_bitmap st1) /\
    regions st' = <[hr := after_compaction r]> (regions st1) /\
    regions st' !! hr = Some (after_compaction r) /\
    state (after_compaction r) = Compacted /\
    top (after_compaction r) = compaction_top r /\
    top_at_mark_start (after_compaction r) = bottom r /\
    claims st' = claims st1 /\
    trace st' = trace st1 ++ [EvSet hr Compacted].
Proof.
  intros Hr Ha H1.
  rewrite (compact_region_step fl hr st r st1 Hr Ha H1).
  destruct (apply_to_marked_objects_Ok fl _ _ _ H1) as (r0 & m1 & _ & _ & ->).
  eexists. split; [reflexivity|]. simpl.
  repeat split; try reflexivity.
  - intros a. unfold clear_range. now destruct (G1VerifyBitmaps fl).
  - intros ->. reflexivity.
  - apply list_lookup_insert_eq. eapply lookup_lt_Some; eauto.
Qed.

(** C6: the skip handler clears the bits of the region in the bitmap
    whatever the flags, sets the region state to skipped and leaves every
    other field of the region, every other region, the claimer and all heap
    words and bytes as they were. *)
Theorem process_skipping_metadata_only hr st r :
  regions st !! hr = Some r ->
  exists st',
    process_skipping_compaction_region hr st = Ok st' /\
    heap st' = heap st /\
    (forall b, byte_at (heap st') b = byte_at (heap st) b) /\
    (forall a, mark_bitmap st' a =
       if (bottom r <=? a) && (a <? hr_end r) then false else mark_bitmap st a) /\
    regions st' = <[hr := set_state Skipped r]> (regions st) /\
    regions st' !! hr = Some (set_state Skipped r) /\
    state (set_state Skipped r) = Skipped /\
    (bottom (set_state Skipped r) = bottom r /\
     hr_end (set_state Skipped r) = hr_end r /\
     top (set_state Skipped r) = top r /\
     compaction_top (set_state Skipped r) = compaction_top r /\
     top_at_mark_start (set_state Skipped r) = top_at_mark_start r) /\
    (forall j, j <> hr -> regions st' !! j = regions st !! j) /\
    claims st' = claims st.
Proof.
  intros Hr. rewrite (process_skipping_step hr st r Hr).
  eexists. split; [reflexivity|]. simpl.
  repeat split; try reflexivity.
  - apply list_lookup_insert_eq. eapply lookup_lt_Some; eauto.
  - intros j Hj. apply list_lookup_insert_ne. congruence.
Qed.

Lemma compact_region_tail_failure hr st msg :
  (do st1 <- apply_to_marked_objects fl hr st;
   do st2 <- (if G1VerifyBitmaps fl then clear_region hr st1 else Ok st1);
   reset_compacted_after_full_gc hr st2) = AssertionFailure msg ->
  msg = "everything in this pass should be moving" \/ msg = "should have a class".
Proof.
  intros H. apply bind_assertion in H. destruct H as [H|(st1 & _ & H)].
  - unfold apply_to_marked_objects in H.
    apply bind_assertion in H. destruct H as [H|(r & _ & H)].
    + now apply region_at_not_assertion in H.
    + apply bind_assertion in H. destruct H as [H|(m1 & _ & H)]; [|discriminate].
      eapply scan_marked_failure; eauto.
  - apply bind_assertion in H. destruct H as [H|(st2 & _ & H)].
    + destruct (G1VerifyBitmaps fl); [|discriminate].
      unfold clear_region in H. apply bind_assertion in H.
      destruct H as [H|(r & _ & H)]; [|discriminate].
      now apply region_at_not_assertion in H.
    + unfold reset_compacted_after_full_gc in H. apply bind_assertion in H.
      destruct H as [H|(r & _ & H)]; [|discriminate].
      now apply region_at_not_assertion in H.
Qed.

(** C8: [compact_region] checks at entry that its region is neither pinned
    nor humongous.  It stops on the first assertion exactly when asserts are
    compiled in and the region is pinned, and on the second exactly when
    they are compiled in and the region is humongous but not pinned; so for
    a region that is neither, as the compaction queues hold, neither failure
    can happen. *)
Theorem compact_region_entry_asserts hr st r :
  regions st !! hr = Some r ->
  (compact_region fl hr st
     = AssertionFailure "Should be no pinned region in compaction queue"
   <-> ASSERT fl = true /\ is_pinned r = true) /\
  (compact_region fl hr st
     = AssertionFailure "Should be no humongous regions in compaction queue"
   <-> ASSERT fl = true /\ is_pinned r = false /\ is_humongous r = true) /\
  (is_pinned r = false -> is_humongous r = false ->
   compact_region fl hr st
     <> AssertionFailure "Should be no pinned region in compaction queue" /\
   compact_region fl hr st
     <> AssertionFailure "Should be no humongous regions in compaction queue").
Proof.
  intros Hr.
  assert (Hp : compact_region fl hr st
     = AssertionFailure "Should be no pinned region in compaction queue"
   <-> ASSERT fl = true /\ is_pinned r = true).
  { unfold compact_region. rewrite (region_at_Some _ _ _ Hr). simpl.
    unfold assert. destruct (ASSERT fl), (is_pinned r), (is_humongous r); simpl;
      try (split; [discriminate|intros [? ?]; discriminate]);
      try (split; [auto|reflexivity]);
      (split; [intros H; apply compact_region_tail_failure in H;
               destruct H; discriminate | intros [? ?]; discriminate]). }
  assert (Hh : compact_region fl hr st
     = AssertionFailure "Should be no humongous regions in compaction queue"
   <-> ASSERT fl = true /\ is_pinned r = false /\ is_humongous r = true).
  { unfold compact_region. rewrite (region_at_Some _ _ _ Hr). simpl.
    unfold assert. destruct (ASSERT fl), (is_pinned r), (is_humongous r); simpl;
      try (split; [discriminate|intros (? & ? & ?); discriminate]);
      try (split; [auto|reflexivity]);
      (split; [intros H; apply compact_region_tail_failure in H;
               destruct H; discriminate | intros (? & ? & ?); discriminate]). }
  split; [exact Hp|]. split; [exact Hh|].
  intros Hnp Hnh. split.
  - intros H. apply Hp in H. destruct H. congruence.
  - intros H. apply Hh in H. destruct H as (_ & _ & H). congruence.
Qed.

(** C9: when the pinned-region resetter has been applied to a region, a
    second application succeeds, answers [false] and gives the same heap,
    bitmap, region table and claimer as the first: it changes nothing. *)
Theorem reset_pinned_idempotent r st b st1 :
  do_heap_region fl r st = Ok (b, st1) ->
  exists st2,
    do_heap_region fl r st1 = Ok (false, st2) /\
    heap st2 = heap st1 /\
    mark_bitmap st2 = mark_bitmap st1 /\
    regions st2 = regions st1 /\
    claims st2 = claims st1.
Proof.
  intros H1.
  destruct (do_heap_region_Ok fl _ _ _ _ H1) as (hr & Hr & Ha).
  rewrite (do_heap_region_step fl r st hr Hr Ha) in H1.
  injection H1 as _ <-.
  destruct (is_pinned hr) eqn:Hp.
  - assert (Hlt : (r < length (regions st))%nat) by (eapply lookup_lt_Some; eauto).
    rewrite (do_heap_region_step fl r _ (set_state PinnedReset hr)).
    + eexists. split; [reflexivity|]. simpl. rewrite Hp.
      repeat split; simpl. apply list_insert_insert_eq.
    + simpl. now apply list_lookup_insert_eq.
    + simpl. intros Hd _. now apply Ha.
  - rewrite (do_heap_region_step fl r st hr Hr) by (intros; congruence).
    rewrite Hp. eexists. repeat split.
Qed.

End RegionClaims.

(** ** Runs that end *)

Lemma ends_bind {A B} fl (r : Result A) (k : A -> Result B) :
  ends fl r -> (forall a, r = Ok a -> ends fl (k a)) -> ends fl (bind r k).
Proof. destruct r; simpl; auto. Qed.

Lemma ends_assert fl cond msg : ends fl (assert fl cond msg).
Proof. unfold assert. destruct (ASSERT fl) eqn:E, cond; simpl; auto. Qed.


(** ** The slice claimed by a walk *)

Lemma claimed_slice_elem n start : forall counts c i,
  i ∈ claimed_slice c n start counts <->
  c i = false /\ i ∈ walk_indices n start counts.
Proof.
  induction counts as [|k counts IH]; intros c i; simpl.
  - split; [intros H; inversion H | intros [_ H]; inversion H].
  - set (index := ((start + k) mod n)%nat).
    destruct (c index) eqn:Ec.
    + rewrite IH, elem_of_cons. split; [tauto|].
      intros [Hi [->|H]]; [congruence|tauto].
    + rewrite !elem_of_cons, IH. destruct (Nat.eqb_spec i index) as [->|Hne].
      * split; [auto|]. intros _. now left.
      * split; [intros [?|[? ?]]; [contradiction|tauto] | tauto].
Qed.

Lemma claimed_slice_NoDup n start : forall counts c,
  NoDup (claimed_slice c n start counts).
Proof.
  induction counts as [|k counts IH]; intros c; simpl; [constructor|].
  set (index := ((start + k) mod n)%nat).
  destruct (c index) eqn:Ec; [apply IH|].
  constructor; [|apply IH].
  rewrite claimed_slice_elem. rewrite Nat.eqb_refl. intros [H _]. discriminate.
Qed.

(** A full turn from any start goes through every region index. *)
Lemma walk_indices_full n start i :
  (i < n)%nat -> i ∈ walk_indices n start (seq 0 n).
Proof.
  intros Hi. unfold walk_indices. apply list_elem_of_fmap.
  exists ((i + n - start mod n) mod n)%nat. split.
  - assert (Hn : n <> 0%nat) by lia.
    pose proof (Nat.mod_upper_bound start n Hn) as Hs.
    rewrite <- Nat.Div0.add_mod_idemp_l, Nat.Div0.add_mod_idemp_r.
    replace (start mod n + (i + n - start mod n))%nat with (i + 1 * n)%nat by lia.
    rewrite Nat.Div0.mod_add. symmetry. now apply Nat.mod_small.
  - apply elem_of_seq. split; [lia|]. simpl. apply Nat.mod_upper_bound. lia.
Qed.

Lemma walk_indices_bound n start counts i :
  (0 < n)%nat -> i ∈ walk_indices n start counts -> (i < n)%nat.
Proof.
  intros Hn H. unfold walk_indices in H. apply list_elem_of_fmap in H.
  destruct H as (k & -> & _). apply Nat.mod_upper_bound. lia.
Qed.



Section WorkerFacts.
Context {OM : ObjectModel}.
Variable fl : Flags.

(** ** The pinned-region resetter under the heap iteration *)

Lemma do_heap_region_Ok_spec r st b st' :
  do_heap_region fl r st = Ok (b, st') ->
  b = false /\
  evolves st (if pinned_at st r then [EvSet r PinnedReset] else []) st' /\
  heap st' = heap st /\ mark_bitmap st' = mark_bitmap st /\ claims st' = claims st.
Proof.
  intros H. destruct (do_heap_region_Ok fl _ _ _ _ H) as (hr & Hr & Ha).
  rewrite (do_heap_region_step fl r st hr Hr Ha) in H.
  injection H as <- <-. split; [reflexivity|].
  unfold pinned_at. rewrite Hr. destruct (is_pinned hr) eqn:Hp.
  - split; [|auto].
    apply (evolves_write st r hr (set_state PinnedReset hr) PinnedReset); auto.
  - split; [apply evolves_refl|auto].
Qed.

Lemma do_heap_region_ends r st :
  (r < length (regions st))%nat -> ends fl (do_heap_region fl r st).
Proof.
  intros Hlt. unfold do_heap_region.
  destruct (lookup_lt_is_Some_2 _ _ Hlt) as [hr Hr].
  rewrite (region_at_Some _ _ _ Hr). simpl.
  destruct (is_pinned hr); simpl; [|exact I].
  apply ends_bind; [apply ends_assert|]. intros _ _.
  unfold reset_pinned_after_full_gc. rewrite (region_at_Some _ _ _ Hr). exact I.
Qed.

Lemma par_iterate_Ok n start : forall counts st st',
  par_iterate (do_heap_region fl) n start counts st = Ok st' ->
  evolves st
    (flat_map (reset_pinned_events st) (claimed_slice (claims st) n start counts))
    st' /\
  heap st' = heap st /\ mark_bitmap st' = mark_bitmap st /\
  (forall i, claims st' i = true <->
             claims st i = true \/ i ∈ walk_indices n start counts).
Proof.
  induction counts as [|k counts IH]; intros st st' H; simpl in H.
  - injection H as <-. split; [apply evolves_refl|]. repeat split; auto.
    intros [?|Hin]; [assumption|inversion Hin].
  - set (index := ((start + k) mod n)%nat) in *.
    unfold is_region_claimed in H. simpl.
    fold index. destruct (claims st index) eqn:Ec.
    + destruct (IH _ _ H) as (He & Hh & Hb & Hc).
      split; [exact He|]. split; [exact Hh|]. split; [exact Hb|].
      intros i. rewrite Hc, elem_of_cons. split; [tauto|].
      intros [?|[->|?]]; auto.
    + inv_bind H. destruct a as [res st1].
      destruct (do_heap_region_Ok_spec _ _ _ _ Ha) as (-> & He1 & Hh1 & Hb1 & Hc1).
      destruct (IH _ _ H) as (He & Hh & Hb & Hc).
      set (st0 := log (EvVisit index) (claim_region index st)) in *.
      assert (He0 : evolves st [EvVisit index] st0) by (now apply evolves_quiet).
      pose proof (evolves_trans _ _ _ _ _ He0 He1) as He01.
      assert (Hpin : forall j, reset_pinned_events st1 j = reset_pinned_events st j).
      { intros j. unfold reset_pinned_events.
        now rewrite (evolves_pinned_at _ _ _ j He01). }
      rewrite (flat_map_ext _ _ Hpin), Hc1 in He.
      split; [|split; [now rewrite Hh, Hh1|split; [now rewrite Hb, Hb1|]]].
      * pose proof (evolves_trans _ _ _ _ _ He01 He) as Hall.
        simpl in Hall. exact Hall.
      * intros i. rewrite Hc, Hc1, elem_of_cons. simpl.
        destruct (Nat.eqb_spec i index) as [->|Hne]; [tauto|].
        split; [tauto|]. intros [?|[?|?]]; auto; contradiction.
Qed.

Lemma par_iterate_ends n start : forall counts st,
  (forall i, i ∈ walk_indices n start counts -> (i < length (regions st))%nat) ->
  ends fl (par_iterate (do_heap_region fl) n start counts st).
Proof.
  induction counts as [|k counts IH]; intros st Hin; simpl; [exact I|].
  assert (Hrest : forall i, i ∈ walk_indices n start counts ->
                            (i < length (regions st))%nat).
  { intros i Hi. apply Hin. simpl. now right. }
  destruct (is_region_claimed st _); [now apply IH|].
  apply ends_bind.
  - apply do_heap_region_ends. simpl. apply Hin. simpl. now left.
  - intros [res st1] H1.
    destruct (do_heap_region_Ok_spec _ _ _ _ H1) as (-> & (_ & Hl & _) & _).
    apply IH. intros i Hi. rewrite Hl. simpl. now apply Hrest.
Qed.

(** ** The loops over the queues *)

Lemma compact_region_evolves hr st st' :
  compact_region fl hr st = Ok st' ->
  evolves st [EvSet hr Compacted] st' /\ claims st' = claims st.
Proof.
  intros H. destruct (compact_region_Ok fl _ _ _ H) as (r & st1 & Hr & Ha & H1).
  rewrite (compact_region_step fl hr st r st1 Hr Ha H1) in H. injection H as <-.
  split; [|reflexivity]. split; [reflexivity|]. split; [apply length_insert|].
  destruct (evolves_write st hr r (after_compaction r) Compacted Hr eq_refl eq_refl)
    as (_ & _ & Hreg).
  exact Hreg.
Qed.

Lemma compact_region_ends hr st :
  (hr < length (regions st))%nat -> ends fl (compact_region fl hr st).
Proof.
  intros Hlt. unfold compact_region.
  destruct (lookup_lt_is_Some_2 _ _ Hlt) as [r Hr].
  rewrite (region_at_Some _ _ _ Hr). simpl.
  apply ends_bind; [apply ends_assert|]. intros _ _.
  apply ends_bind; [apply ends_assert|]. intros _ _.
  apply ends_bind.
  - unfold apply_to_marked_objects. rewrite (region_at_Some _ _ _ Hr). simpl.
    apply ends_bind; [|intros; exact I].
    assert (Hscan : forall fuel next_addr m,
      top r - next_addr <= Z.of_nat fuel ->
      ends fl (scan_marked fl fuel (mark_bitmap st) (top r) next_addr m)).
    { induction fuel as [|fuel IH]; intros next_addr m Hf; simpl;
        destruct (Z.leb_spec (top r) next_addr); try exact I; try lia.
      destruct (is_marked (mark_bitmap st) next_addr); [|apply IH; lia].
      destruct (apply_failure fl m next_addr) as [(size & m' & E)|[E|E]];
        rewrite E; simpl.
      - apply IH. rewrite (apply_Ok_size fl _ _ _ _ E).
        pose proof (oop_size_pos m next_addr). lia.
      - unfold apply, assert in E. destruct (ASSERT fl); [reflexivity|].
        simpl in E. destruct (forwardee m next_addr =? NULL); discriminate.
      - unfold apply, assert in E. destruct (ASSERT fl); [reflexivity|].
        simpl in E. destruct (forwardee m next_addr =? NULL); discriminate. }
    apply Hscan. lia.
  - intros st1 H1.
    destruct (apply_to_marked_objects_Ok fl _ _ _ H1) as (r0 & m1 & _ & _ & ->).
    apply ends_bind.
    + destruct (G1VerifyBitmaps fl); [|exact I].
      unfold clear_region, region_at. simpl. rewrite Hr. exact I.
    + intros st2 H2. unfold reset_compacted_after_full_gc, region_at.
      assert (regions st2 = regions st) as ->.
      { destruct (G1VerifyBitmaps fl); [|now injection H2 as <-].
        unfold clear_region, region_at in H2. simpl in H2. rewrite Hr in H2.
        simpl in H2. injection H2 as <-. reflexivity. }
      rewrite Hr. exact I.
Qed.

Lemma process_skipping_evolves hr st st' :
  process_skipping_compaction_region hr st = Ok st' ->
  evolves st [EvSet hr Skipped] st' /\ claims st' = claims st.
Proof.
  intros H. destruct (process_skipping_Ok _ _ _ H) as (r & Hr).
  rewrite (process_skipping_step hr st r Hr) in H. injection H as <-.
  split; [|reflexivity]. split; [reflexivity|]. split; [apply length_insert|].
  destruct (evolves_write st hr r (set_state Skipped r) Skipped Hr eq_refl eq_refl)
    as (_ & _ & Hreg).
  exact Hreg.
Qed.

Lemma process_skipping_ends hr st :
  (hr < length (regions st))%nat ->
  ends fl (process_skipping_compaction_region hr st).
Proof.
  intros Hlt. destruct (lookup_lt_is_Some_2 _ _ Hlt) as [r Hr].
  rewrite (process_skipping_step hr st r Hr). exact I.
Qed.

(** A loop whose body sets the flag [s] of the region it is given. *)
Lemma for_each_evolves body s :
  (forall hr st st', body hr st = Ok st' ->
     evolves st [EvSet hr s] st' /\ claims st' = claims st) ->
  forall q st st', for_each body q st = Ok st' ->
    evolves st (map (fun hr => EvSet hr s) q) st' /\ claims st' = claims st.
Proof.
  intros Hbody. induction q as [|hr q IH]; intros st st' H; simpl in H.
  - injection H as <-. split; [apply evolves_refl|reflexivity].
  - inv_bind H. destruct (Hbody _ _ _ Ha) as [He1 Hc1].
    destruct (IH _ _ H) as [He Hc].
    split; [|congruence].
    exact (evolves_trans _ _ _ _ _ He1 He).
Qed.

Lemma for_each_ends body s :
  (forall hr st st', body hr st = Ok st' ->
     evolves st [EvSet hr s] st' /\ claims st' = claims st) ->
  (forall hr st, (hr < length (regions st))%nat -> ends fl (body hr st)) ->
  forall q st, (forall hr, hr ∈ q -> (hr < length (regions st))%nat) ->
    ends fl (for_each body q st).
Proof.
  intros Hbody Hends. induction q as [|hr q IH]; intros st Hq; simpl; [exact I|].
  apply ends_bind.
  - apply Hends, Hq. now left.
  - intros st1 H1. destruct (Hbody _ _ _ H1) as [(_ & Hl & _) _].
    apply IH. intros j Hj. rewrite Hl. apply Hq. now right.
Qed.

End WorkerFacts.

Lemma walk_indices_turn n start i :
  i ∈ walk_indices n start (seq 0 n) <-> (i < n)%nat.
Proof.
  split; [|apply walk_indices_full].
  destruct n as [|n]; [intros H; inversion H|].
  apply walk_indices_bound. lia.
Qed.

Lemma outcomes_reset_pinned st i : forall l, NoDup l ->
  outcomes i (flat_map (reset_pinned_events st) l) =
  if decide (i ∈ l) then (if pinned_at st i then [PinnedReset] else []) else [].
Proof.
  induction l as [|j l IH]; intros Hnd.
  - simpl. destruct (decide (i ∈ [])) as [H|_]; [inversion H|reflexivity].
  - apply NoDup_cons in Hnd as [Hj Hnd].
    change (flat_map (reset_pinned_events st) (j :: l))
      with ([EvVisit j] ++ (if pinned_at st j then [EvSet j PinnedReset] else [])
            ++ flat_map (reset_pinned_events st) l).
    rewrite !outcomes_app, (IH Hnd).
    change (outcomes i [EvVisit j]) with (@nil RegionState). simpl.
    destruct (decide (i = j)) as [->|Hne].
    + destruct (decide (j ∈ l)) as [?|_]; [contradiction|].
      destruct (decide (j ∈ j :: l)) as [_|Hn]; [|exfalso; apply Hn; now left].
      rewrite app_nil_r.
      destruct (pinned_at st j); [apply outcomes_set_eq|reflexivity].
    + assert (E : outcomes i (if pinned_at st j then [EvSet j PinnedReset] else []) = []).
      { destruct (pinned_at st j); [now apply outcomes_set_ne|reflexivity]. }
      rewrite E. simpl.
      destruct (decide (i ∈ l)) as [Hi|Hi], (decide (i ∈ j :: l)) as [Hi'|Hi'];
        try reflexivity; exfalso.
      * apply Hi'. now right.
      * apply elem_of_cons in Hi'. tauto.
Qed.

Section WorkerClaims.
Context {OM : ObjectModel}.
Variable fl : Flags.

Lemma pinned_pass_Ok hrclaimer w st st' :
  heap_region_par_iterate_from_worker_offset (do_heap_region fl) hrclaimer w st
    = Ok st' ->
  evolves st (flat_map (reset_pinned_events st) (worker_slice hrclaimer w st)) st' /\
  heap st' = heap st /\ mark_bitmap st' = mark_bitmap st /\
  (forall i, claims st' i = true <->
             claims st i = true \/ (i < length (regions st))%nat).
Proof.
  unfold heap_region_par_iterate_from_worker_offset, worker_slice. intros H.
  destruct (par_iterate_Ok fl _ _ _ _ _ H) as (He & Hh & Hb & Hc).
  split; [exact He|]. split; [exact Hh|]. split; [exact Hb|].
  intros i. now rewrite Hc, walk_indices_turn.
Qed.

Lemma pinned_pass_ends hrclaimer w st :
  ends fl (heap_region_par_iterate_from_worker_offset (do_heap_region fl)
             hrclaimer w st).
Proof.
  unfold heap_region_par_iterate_from_worker_offset.
  apply par_iterate_ends. intros i. now rewrite walk_indices_turn.
Qed.

(** C10: the pinned-region resetter answers [false] whenever it returns,
    and on a region that is not pinned it returns at once with the state it
    was given.  So the heap iteration that drives it never stops early: it
    ends, and when it returns every region of the heap is claimed, every
    region that was still unclaimed has been handed to the resetter by this
    worker, once, and every region that is not pinned is as it was. *)
Theorem reset_pinned_never_stops :
  (forall r st b st', do_heap_region fl r st = Ok (b, st') -> b = false) /\
  (forall r st hr, regions st !! r = Some hr -> is_pinned hr = false ->
     do_heap_region fl r st = Ok (false, st)) /\
  (forall hrclaimer w st,
     ends fl (heap_region_par_iterate_from_worker_offset (do_heap_region fl)
                hrclaimer w st) /\
     forall st',
       heap_region_par_iterate_from_worker_offset (do_heap_region fl)
         hrclaimer w st = Ok st' ->
       trace st' = trace st
         ++ flat_map (reset_pinned_events st) (worker_slice hrclaimer w st) /\
       NoDup (worker_slice hrclaimer w st) /\
       forall i, (i < length (regions st))%nat ->
         claims st' i = true /\
         (claims st i = false -> i ∈ worker_slice hrclaimer w st) /\
         (pinned_at st i = false -> regions st' !! i = regions st !! i)).
Proof.
  split; [|split].
  - intros r st b st' H. now destruct (do_heap_region_Ok_spec fl _ _ _ _ H).
  - intros r st hr Hr Hp.
    rewrite (do_heap_region_step fl r st hr Hr) by (intros; congruence).
    now rewrite Hp.
  - intros hrclaimer w st. split; [apply pinned_pass_ends|].
    intros st' H.
    destruct (pinned_pass_Ok _ _ _ _ H) as ((Ht & _ & Hreg) & _ & _ & Hc).
    split; [exact Ht|]. split; [apply claimed_slice_NoDup|].
    intros i Hi. split; [apply Hc; now right|]. split.
    + intros Hf. unfold worker_slice. apply claimed_slice_elem.
      split; [exact Hf|]. now apply walk_indices_turn.
    + intros Hp. destruct (lookup_lt_is_Some_2 _ _ Hi) as [r Hr].
      destruct (Hreg i r Hr) as (r' & Hr' & _ & Hlast).
      rewrite outcomes_reset_pinned in Hlast by apply claimed_slice_NoDup.
      rewrite Hp in Hlast.
      destruct (decide (i ∈ worker_slice hrclaimer w st)); simpl in Hlast;
        congruence.
Qed.

Lemma work_Ok c w st st' :
  work fl c w st = Ok st' ->
  evolves st (work_events fl c w st) st' /\
  (forall i, claims st' i = true <->
             claims st i = true \/ (i < length (regions st))%nat).
Proof.
  unfold work. intros H. inv_bind H. inv_bind H. inv_bind H. injection H as <-.
  destruct (for_each_evolves _ Compacted (compact_region_evolves fl) _ _ _ Ha)
    as [He1 Hc1].
  assert (H2 : evolves a
            (if 0 <? MarkSweepDeadRatio fl
             then map (fun hr => EvSet hr Skipped) (skipping_compaction_set c w)
             else []) a0 /\ claims a0 = claims a).
  { destruct (0 <? MarkSweepDeadRatio fl).
    - exact (for_each_evolves _ Skipped process_skipping_evolves _ _ _ Ha0).
    - injection Ha0 as <-. split; [apply evolves_refl|reflexivity]. }
  destruct H2 as [He2 Hc2].
  pose proof (evolves_trans _ _ _ _ _ He1 He2) as He12.
  destruct (pinned_pass_Ok _ _ _ _ Ha1) as (He3 & _ & _ & Hc3).
  assert (Hlen : length (regions a0) = length (regions st)) by apply He12.
  assert (Hsl : worker_slice (claimer_offset c) w a0 = worker_slice (claimer_offset c) w st).
  { unfold worker_slice. now rewrite Hlen, Hc2, Hc1. }
  assert (Hpin : forall j, reset_pinned_events a0 j = reset_pinned_events st j).
  { intros j. unfold reset_pinned_events.
    now rewrite (evolves_pinned_at _ _ _ j He12). }
  rewrite Hsl, (flat_map_ext _ _ Hpin) in He3.
  assert (He4 : evolves a1 [EvLogTask w] (log_task w a1))
    by (now apply evolves_quiet).
  split.
  - unfold work_events.
    exact (evolves_trans _ _ _ _ _ He1
             (evolves_trans _ _ _ _ _ He2 (evolves_trans _ _ _ _ _ He3 He4))).
  - intros i. simpl. now rewrite Hc3, Hlen, Hc2, Hc1.
Qed.

Lemma work_ends c w st :
  (forall hr, hr ∈ compaction_point c w -> (hr < length (regions st))%nat) ->
  (0 < MarkSweepDeadRatio fl ->
   forall hr, hr ∈ skipping_compaction_set c w -> (hr < length (regions st))%nat) ->
  ends fl (work fl c w st).
Proof.
  intros Hq Hs. unfold work.
  apply ends_bind.
  { apply (for_each_ends fl _ Compacted (compact_region_evolves fl)
             (compact_region_ends fl)), Hq. }
  intros st1 H1.
  destruct (for_each_evolves _ Compacted (compact_region_evolves fl) _ _ _ H1)
    as [(_ & Hl1 & _) _].
  apply ends_bind.
  { destruct (Z.ltb_spec 0 (MarkSweepDeadRatio fl)) as [Hpos|_]; [|exact I].
    apply (for_each_ends fl _ Skipped process_skipping_evolves
             (process_skipping_ends fl)).
    intros hr Hhr. rewrite Hl1. now apply Hs. }
  intros st2 _. apply ends_bind; [apply pinned_pass_ends|]. intros; exact I.
Qed.

(** C3: [work] does three things, in this order: it compacts the regions of
    the worker's compaction queue, in queue order; if, and only if,
    [MarkSweepDeadRatio] is positive it hands the regions of the worker's
    skip set to the skip handler; and it walks the heap with the
    pinned-region resetter over the slice the worker claims.  It ends with
    the timing record.  The run ends (on a result, or in a debug build on an
    assertion), and when it returns the trace has grown by exactly these
    events. *)
Theorem work_steps_in_order c w st :
  (forall hr, hr ∈ compaction_point c w -> (hr < length (regions st))%nat) ->
  (0 < MarkSweepDeadRatio fl ->
   forall hr, hr ∈ skipping_compaction_set c w -> (hr < length (regions st))%nat) ->
  ends fl (work fl c w st) /\
  forall st', work fl c w st = Ok st' ->
    (exists st1 st2 st3,
       for_each (compact_region fl) (compaction_point c w) st = Ok st1 /\
       (if 0 <? MarkSweepDeadRatio fl
        then for_each process_skipping_compaction_region
               (skipping_compaction_set c w) st1 = Ok st2
        else st2 = st1) /\
       heap_region_par_iterate_from_worker_offset (do_heap_region fl)
         (claimer_offset c) w st2 = Ok st3 /\
       st' = log_task w st3) /\
    trace st' = trace st
      ++ map (fun hr => EvSet hr Compacted) (compaction_point c w)
      ++ (if 0 <? MarkSweepDeadRatio fl
          then map (fun hr => EvSet hr Skipped) (skipping_compaction_set c w)
          else [])
      ++ flat_map (reset_pinned_events st) (worker_slice (claimer_offset c) w st)
      ++ [EvLogTask w].
Proof.
  intros Hq Hs. split; [now apply work_ends|].
  intros st' H. split.
  - unfold work in H. inv_bind H. inv_bind H. inv_bind H. injection H as <-.
    exists a, a0, a1. split; [exact Ha|]. split; [|split; [exact Ha1|reflexivity]].
    destruct (0 <? MarkSweepDeadRatio fl); [exact Ha0|congruence].
  - destruct (work_Ok _ _ _ _ H) as [(Ht & _) _]. exact Ht.
Qed.

End WorkerClaims.

(** ** Lists *)

Lemma flat_map_app_Permutation {A B} (f g : A -> list B) l :
  flat_map (fun x => f x ++ g x) l ≡ₚ flat_map f l ++ flat_map g l.
Proof.
  induction l as [|a l IH]; simpl; [reflexivity|].
  rewrite IH, <- !app_assoc. apply Permutation_app_head.
  rewrite !app_assoc. apply Permutation_app_tail, Permutation_app_comm.
Qed.

Lemma elem_of_flat_map {A B} (f : A -> list B) l y :
  y ∈ flat_map f l <-> exists x, x ∈ l /\ y ∈ f x.
Proof.
  rewrite list_elem_of_In, in_flat_map.
  split; intros (x & Hx & Hy); exists x; now rewrite ?list_elem_of_In in *.
Qed.

(** ** Terminal flags written along a trace *)

Lemma writes_map_set s q :
  writes (map (fun hr => EvSet hr s) q) = map (fun hr => (hr, s)) q.
Proof. induction q as [|hr q IH]; simpl; [reflexivity|]. now rewrite IH. Qed.


Lemma elem_of_map_fst {A B} (l : list (A * B)) x :
  x ∈ map fst l <-> exists y, (x, y) ∈ l.
Proof.
  change (map fst l) with (fst <$> l). rewrite list_elem_of_fmap. split.
  - intros ([a b] & -> & H). eauto.
  - intros (y & H). exists (x, y). auto.
Qed.

Lemma elem_of_map_tag {B} (s : B) (q : list nat) i t :
  (i, t) ∈ map (fun hr => (hr, s)) q <-> t = s /\ i ∈ q.
Proof.
  change (map (fun hr => (hr, s)) q) with ((fun hr => (hr, s)) <$> q).
  rewrite list_elem_of_fmap. split.
  - intros (hr & E & H). injection E as -> ->. auto.
  - intros [-> H]. eauto.
Qed.

Lemma filter_fst_none {B} (l : list (nat * B)) i :
  i ∉ map fst l -> filter (fun w => fst w = i) l = [].
Proof.
  induction l as [|[j t] l IH]; intros Hi; [reflexivity|].
  simpl in Hi. apply not_elem_of_cons in Hi as [Hne Hi].
  rewrite filter_cons_False by (simpl; congruence). now apply IH.
Qed.

(** With one write per region, the writes of a region are that write. *)
Lemma filter_fst_unique {B} (l : list (nat * B)) i s :
  NoDup (map fst l) -> (i, s) ∈ l -> filter (fun w => fst w = i) l = [(i, s)].
Proof.
  induction l as [|[j t] l IH]; intros Hnd Hin; [inversion Hin|].
  simpl in Hnd. apply NoDup_cons in Hnd as [Hj Hnd].
  apply elem_of_cons in Hin as [Heq|Hin].
  - injection Heq as <- <-. rewrite filter_cons_True by reflexivity.
    now rewrite filter_fst_none.
  - rewrite filter_cons_False; [now apply IH|].
    simpl. intros <-. apply Hj, elem_of_map_fst. eauto.
Qed.



Section StepFacts.
Context {OM : ObjectModel}.
Variable fl : Flags.

(** ** One region step *)

Lemma run_task_Ok t st st1 :
  run_task fl t st = Ok st1 ->
  exists tr, evolves st tr st1 /\ writes tr = task_writes st t /\
    (forall i, claims st1 i = true <->
               claims st i = true \/ t = TaskResetPinned i).
Proof.
  destruct t as [hr|hr|index|w]; simpl; intros H.
  - destruct (compact_region_evolves fl _ _ _ H) as [He Hc].
    exists [EvSet hr Compacted]. split; [exact He|]. split; [reflexivity|].
    intros i. rewrite Hc. split; [auto|]. intros [?|?]; [assumption|discriminate].
  - destruct (process_skipping_evolves _ _ _ H) as [He Hc].
    exists [EvSet hr Skipped]. split; [exact He|]. split; [reflexivity|].
    intros i. rewrite Hc. split; [auto|]. intros [?|?]; [assumption|discriminate].
  - unfold is_region_claimed in H. destruct (claims st index) eqn:Ec.
    + injection H as <-. exists []. split; [apply evolves_refl|].
      split; [reflexivity|]. intros i. split; [auto|].
      intros [?|E]; [assumption|]. injection E as ->. exact Ec.
    + inv_bind H. destruct a as [res st0]. injection H as ->.
      destruct (do_heap_region_Ok_spec fl _ _ _ _ Ha) as (_ & He & _ & _ & Hc).
      exists ([EvVisit index]
              ++ (if pinned_at st index then [EvSet index PinnedReset] else [])).
      split; [|split].
      * eapply evolves_trans; [|exact He]. now apply evolves_quiet.
      * destruct (pinned_at st index); reflexivity.
      * intros i. rewrite Hc. simpl.
        destruct (Nat.eqb_spec i index) as [->|Hne]; [tauto|].
        split; [auto|]. intros [?|E]; [assumption|]. congruence.
  - injection H as <-. exists [EvLogTask w].
    split; [now apply evolves_quiet|]. split; [reflexivity|].
    intros i. simpl. split; [auto|]. intros [?|?]; [assumption|discriminate].
Qed.

Lemma run_task_ends t st :
  task_in_heap (length (regions st)) t -> ends fl (run_task fl t st).
Proof.
  destruct t as [hr|hr|index|w]; simpl; intros Hin.
  - now apply compact_region_ends.
  - now apply process_skipping_ends.
  - destruct (is_region_claimed st index); [exact I|].
    apply ends_bind; [now apply do_heap_region_ends|]. intros [res st1] _. exact I.
  - exact I.
Qed.

Lemma task_writes_elem st t i s :
  (i, s) ∈ task_writes st t <->
  (s = Compacted /\ t = TaskCompact i) \/
  (s = Skipped /\ t = TaskSkip i) \/
  (s = PinnedReset /\ pinned_at st i = true /\ claims st i = false /\
   t = TaskResetPinned i).
Proof.
  destruct t as [hr|hr|index|w]; simpl.
  - rewrite list_elem_of_singleton. split.
    + intros E. injection E as -> ->. auto.
    + intros [[-> E]|[[_ E]|(_ & _ & _ & E)]]; try discriminate.
      now injection E as ->.
  - rewrite list_elem_of_singleton. split.
    + intros E. injection E as -> ->. auto.
    + intros [[_ E]|[[-> E]|(_ & _ & _ & E)]]; try discriminate.
      now injection E as ->.
  - split.
    + destruct (claims st index) eqn:Ec; [intros H; inversion H|].
      destruct (pinned_at st index) eqn:Ep; [|intros H; inversion H].
      intros H. apply list_elem_of_singleton in H. injection H as -> ->.
      right; right. auto.
    + intros [[_ E]|[[_ E]|(-> & Hp & Hc & E)]]; try discriminate.
      injection E as <-. rewrite Hc, Hp. now left.
  - split; [intros H; inversion H|].
    intros [[_ E]|[[_ E]|(_ & _ & _ & E)]]; discriminate.
Qed.

(** ** Region steps in a row *)

Lemma task_regions_cons t ts :
  task_regions (t :: ts) = task_regions [t] ++ task_regions ts.
Proof. unfold task_regions. simpl. now rewrite app_nil_r. Qed.

Lemma run_tasks_Ok : forall ts st st1,
  run_tasks fl ts st = Ok st1 ->
  NoDup (task_regions ts) ->
  (forall i, i ∈ task_regions ts -> pinned_at st i = false) ->
  exists tr,
    evolves st tr st1 /\
    (forall i, claims st1 i = true <->
               claims st i = true \/ TaskResetPinned i ∈ ts) /\
    NoDup (map fst (writes tr)) /\
    (forall i s, (i, s) ∈ writes tr <->
       (s = Compacted /\ TaskCompact i ∈ ts) \/
       (s = Skipped /\ TaskSkip i ∈ ts) \/
       (s = PinnedReset /\ pinned_at st i = true /\ claims st i = false /\
        TaskResetPinned i ∈ ts)).
Proof.
  induction ts as [|t ts IH]; intros st st1 H Hnd Hnp; simpl in H.
  - injection H as <-. exists []. split; [apply evolves_refl|].
    split; [intros i; split; [auto|intros [?|Hin]; [auto|inversion Hin]]|].
    split; [constructor|].
    intros i s. split; [intros Hin; inversion Hin|].
    intros [[_ Hin]|[[_ Hin]|(_ & _ & _ & Hin)]]; inversion Hin.
  - inv_bind H. rename a into sm.
    destruct (run_task_Ok _ _ _ Ha) as (tr0 & He0 & Hw0 & Hc0).
    rewrite task_regions_cons in Hnd, Hnp.
    apply NoDup_app in Hnd as (_ & Hdisj & Hndr).
    assert (Hpin : forall i, pinned_at sm i = pinned_at st i)
      by (intros i; apply (evolves_pinned_at _ _ _ i He0)).
    destruct (IH sm st1 H Hndr) as (trr & Her & Hcr & Hndtr & Hmr).
    { intros i Hi. rewrite Hpin. apply Hnp, elem_of_app. now right. }
    assert (Hregion : forall i, TaskCompact i ∈ ts \/ TaskSkip i ∈ ts ->
                                i ∈ task_regions ts).
    { intros i Hi. unfold task_regions. apply elem_of_flat_map.
      destruct Hi as [Hi|Hi]; eexists; (split; [exact Hi|now left]). }
    exists (tr0 ++ trr).
    split; [exact (evolves_trans _ _ _ _ _ He0 Her)|]. split; [|split].
    + intros i. rewrite Hcr, Hc0, elem_of_cons. split.
      * intros [[?|?]|?]; auto.
      * intros [?|[?|?]]; auto.
    + rewrite writes_app, map_app, Hw0. apply NoDup_app.
      split; [|split; [|exact Hndtr]].
      * destruct t as [hr|hr|index|w]; simpl;
          try apply NoDup_singleton; try apply NoDup_nil_2.
        destruct (claims st index); [apply NoDup_nil_2|].
        destruct (pinned_at st index); [apply NoDup_singleton|apply NoDup_nil_2].
      * intros x Hx Hx'. apply elem_of_map_fst in Hx as [s Hx].
        apply elem_of_map_fst in Hx' as [s' Hx'].
        apply task_writes_elem in Hx. apply Hmr in Hx'.
        assert (Hx'' : x ∈ task_regions ts \/
                       (pinned_at st x = true /\ claims sm x = false)).
        { destruct Hx' as [[_ ?]|[[_ ?]|(_ & Hp & Hc & _)]]; auto.
          right. now rewrite <- Hpin. }
        destruct Hx as [[_ ->]|[[_ ->]|(_ & Hp & Hc & ->)]].
        -- destruct Hx'' as [Hr|[Hp _]].
           ++ apply (Hdisj x); [now left|exact Hr].
           ++ rewrite Hnp in Hp; [discriminate|]. apply elem_of_app. left. now left.
        -- destruct Hx'' as [Hr|[Hp _]].
           ++ apply (Hdisj x); [now left|exact Hr].
           ++ rewrite Hnp in Hp; [discriminate|]. apply elem_of_app. left. now left.
        -- destruct Hx'' as [Hr|[_ Hc']].
           ++ rewrite Hnp in Hp; [discriminate|]. apply elem_of_app. now right.
           ++ assert (claims sm x = true) by (apply Hc0; now right). congruence.
    + assert (Hmono : forall i, claims sm i = false -> claims st i = false).
      { intros i Hf. destruct (claims st i) eqn:E; [|reflexivity].
        assert (claims sm i = true) by (apply Hc0; now left). congruence. }
      assert (Hhead : forall i, claims st i = false -> claims sm i = true ->
                                t = TaskResetPinned i).
      { intros i Hf Ht. apply Hc0 in Ht as [Ht|Ht]; [congruence|exact Ht]. }
      intros i s. rewrite writes_app, elem_of_app, Hw0, task_writes_elem, Hmr,
        !elem_of_cons, Hpin. split.
      * intros [[[-> ->]|[[-> ->]|(-> & Hp & Hc & ->)]]
               |[[-> Hi]|[[-> Hi]|(-> & Hp & Hc & Hi)]]]; auto 8.
      * intros [[-> [<-|Hi]]|[[-> [<-|Hi]]|(-> & Hp & Hc & [<-|Hi])]]; auto 8.
        destruct (claims sm i) eqn:E; [|right; right; right; auto].
        left. right; right. repeat split; auto; now apply Hhead.
Qed.

Lemma run_tasks_ends : forall ts st,
  Forall (task_in_heap (length (regions st))) ts -> ends fl (run_tasks fl ts st).
Proof.
  induction ts as [|t ts IH]; intros st Hin; simpl; [exact I|].
  apply Forall_cons in Hin as [Ht Hts].
  apply ends_bind; [now apply run_task_ends|].
  intros sm Hsm. destruct (run_task_Ok _ _ _ Hsm) as (tr & (_ & Hl & _) & _).
  apply IH. now rewrite Hl.
Qed.

End StepFacts.

(** ** Valid plans *)

Section PlanFacts.
Variable fl : Flags.
Variable c : Collector.
Variable st : G1State.
Hypothesis Hplan : valid_plan fl c st.

Lemma drained_all_workers :
  flat_map (drained_skip_set fl c) (seq 0 (workers c))
  = flat_map (skipping_compaction_set c) (seq 0 (workers c)).
Proof.
  unfold drained_skip_set.
  destruct (Z.ltb_spec 0 (MarkSweepDeadRatio fl)) as [Hpos|Hle].
  - reflexivity.
  - rewrite (plan_skip _ _ _ Hplan Hle).
    induction (seq 0 (workers c)) as [|w l IH]; simpl; auto.
Qed.

Lemma schedule_regions_assigned sched :
  sched ≡ₚ seq 0 (workers c) ->
  schedule_regions fl c sched ++ serial_compaction_point c ≡ₚ assigned c.
Proof.
  intros Hperm. unfold schedule_regions, assigned.
  rewrite flat_map_app_Permutation, Hperm, drained_all_workers, <- app_assoc.
  apply Permutation_app_head, Permutation_app_comm.
Qed.

Lemma skipped_is_drained w i :
  i ∈ skipping_compaction_set c w -> (w < workers c)%nat ->
  i ∈ drained_skip_set fl c w.
Proof.
  intros Hi Hw. unfold drained_skip_set.
  destruct (Z.ltb_spec 0 (MarkSweepDeadRatio fl)) as [Hpos|Hle]; [exact Hi|].
  pose proof (plan_skip _ _ _ Hplan Hle) as Hnil.
  assert (Hin : i ∈ flat_map (skipping_compaction_set c) (seq 0 (workers c))).
  { apply elem_of_flat_map. exists w. split; [|exact Hi].
    apply elem_of_seq. lia. }
  rewrite Hnil in Hin. inversion Hin.
Qed.

End PlanFacts.

(** ** [work] as a sequence of region steps *)

Lemma bind_ext {A B} (r : Result A) (k k' : A -> Result B) :
  (forall a, r = Ok a -> k a = k' a) -> bind r k = bind r k'.
Proof. destruct r; simpl; auto. Qed.

Section Refinement.
Context {OM : ObjectModel}.
Variable fl : Flags.

Lemma run_tasks_app ts1 ts2 st :
  run_tasks fl (ts1 ++ ts2) st = bind (run_tasks fl ts1 st) (run_tasks fl ts2).
Proof.
  revert st. induction ts1 as [|t ts1 IH]; intros st; simpl; [reflexivity|].
  destruct (run_task fl t st); simpl; auto.
Qed.

Lemma run_tasks_compact q : forall st,
  run_tasks fl (map TaskCompact q) st = for_each (compact_region fl) q st.
Proof.
  induction q as [|hr q IH]; intros st; simpl; [reflexivity|].
  destruct (compact_region fl hr st); simpl; auto.
Qed.

Lemma run_tasks_skip q : forall st,
  run_tasks fl (map TaskSkip q) st
  = for_each process_skipping_compaction_region q st.
Proof.
  induction q as [|hr q IH]; intros st; simpl; [reflexivity|].
  destruct (process_skipping_compaction_region hr st); simpl; auto.
Qed.

Lemma run_tasks_walk n start counts : forall st,
  run_tasks fl (map TaskResetPinned (walk_indices n start counts)) st
  = par_iterate (do_heap_region fl) n start counts st.
Proof.
  induction counts as [|k counts IH]; intros st; simpl; [reflexivity|].
  destruct (is_region_claimed st ((start + k) mod n)); [apply IH|].
  destruct (do_heap_region fl ((start + k) mod n)
              (log (EvVisit ((start + k) mod n))
                 (claim_region ((start + k) mod n) st)))
    as [[res st1]| | |] eqn:E; simpl; try reflexivity.
  destruct (do_heap_region_Ok_spec fl _ _ _ _ E) as (-> & _). apply IH.
Qed.

(** [work] is the run of the steps of the worker. *)
Lemma work_run_tasks c w st :
  work fl c w st = run_tasks fl (worker_tasks fl c (length (regions st)) w) st.
Proof.
  unfold work, worker_tasks.
  rewrite run_tasks_app, run_tasks_compact. apply bind_ext. intros st1 H1.
  destruct (for_each_evolves _ Compacted (compact_region_evolves fl) _ _ _ H1)
    as [(_ & Hl1 & _) _].
  rewrite run_tasks_app.
  assert (E2 : (if 0 <? MarkSweepDeadRatio fl
                then for_each process_skipping_compaction_region
                       (skipping_compaction_set c w) st1
                else Ok st1)
               = run_tasks fl (map TaskSkip (drained_skip_set fl c w)) st1).
  { unfold drained_skip_set. destruct (0 <? MarkSweepDeadRatio fl);
      [now rewrite run_tasks_skip|reflexivity]. }
  rewrite E2. apply bind_ext. intros st2 H2.
  assert (Hl2 : length (regions st2) = length (regions st1)).
  { rewrite run_tasks_skip in H2.
    now destruct (for_each_evolves _ Skipped process_skipping_evolves _ _ _ H2)
      as [(_ & Hl & _) _]. }
  rewrite run_tasks_app, run_tasks_walk.
  unfold heap_region_par_iterate_from_worker_offset. rewrite Hl2, Hl1.
  apply bind_ext. intros st3 _. reflexivity.
Qed.

(** Workers one after the other run their steps one after the other. *)
Lemma schedule_run_tasks c : forall sched st,
  for_each (work fl c) sched st
  = run_tasks fl (flat_map (worker_tasks fl c (length (regions st))) sched) st.
Proof.
  induction sched as [|w sched IH]; intros st; simpl; [reflexivity|].
  rewrite run_tasks_app, <- work_run_tasks. apply bind_ext. intros sw Hw.
  destruct (work_Ok fl _ _ _ _ Hw) as [(_ & Hl & _) _].
  now rewrite IH, Hl.
Qed.

End Refinement.

(** ** Interleavings *)

Lemma interleaving_Permutation {A} (ls : list (list A)) xs :
  interleaving ls xs -> xs ≡ₚ concat ls.
Proof.
  induction 1 as [ls Hnil|ls1 x l ls2 xs _ IH].
  - induction Hnil as [|l ls -> _ IH]; simpl; [reflexivity|exact IH].
  - rewrite concat_app in *. simpl in *. rewrite IH. apply Permutation_middle.
Qed.

Lemma interleaving_after {A} (ls : list (list A)) : forall pre,
  Forall (fun l => l = []) pre -> interleaving (pre ++ ls) (concat ls).
Proof.
  induction ls as [|l ls IH]; intros pre Hpre; simpl.
  - apply interleaving_done. now rewrite app_nil_r.
  - induction l as [|x l IHl]; simpl.
    + replace (pre ++ [] :: ls) with ((pre ++ [[]]) ++ ls)
        by (now rewrite <- app_assoc).
      apply IH. apply Forall_app. split; [exact Hpre|]. now constructor.
    + apply interleaving_step, IHl.
Qed.

(** The lists one after the other are one of their interleavings. *)
Lemma interleaving_concat {A} (ls : list (list A)) : interleaving ls (concat ls).
Proof. apply (interleaving_after ls []). constructor. Qed.

(** ** The steps of all the workers *)

Lemma task_regions_app ts1 ts2 :
  task_regions (ts1 ++ ts2) = task_regions ts1 ++ task_regions ts2.
Proof. apply flat_map_app. Qed.

Lemma task_regions_compact q : task_regions (map TaskCompact q) = q.
Proof. induction q as [|hr q IH]; simpl; [reflexivity|]. now rewrite IH. Qed.

Lemma task_regions_skip q : task_regions (map TaskSkip q) = q.
Proof. induction q as [|hr q IH]; simpl; [reflexivity|]. now rewrite IH. Qed.

Lemma task_regions_reset l : task_regions (map TaskResetPinned l) = [].
Proof. induction l as [|i l IH]; simpl; [reflexivity|exact IH]. Qed.

Lemma task_regions_worker fl c n w :
  task_regions (worker_tasks fl c n w)
  = compaction_point c w ++ drained_skip_set fl c w.
Proof.
  unfold worker_tasks.
  rewrite !task_regions_app, task_regions_compact, task_regions_skip,
    task_regions_reset.
  simpl. now rewrite app_nil_r.
Qed.

Lemma task_regions_workers fl c n ws :
  task_regions (flat_map (worker_tasks fl c n) ws) = schedule_regions fl c ws.
Proof.
  induction ws as [|w ws IH]; simpl; [reflexivity|].
  rewrite task_regions_app, task_regions_worker, IH. reflexivity.
Qed.

Lemma elem_of_map_iff {A B} (f : A -> B) l y :
  y ∈ map f l <-> exists x, y = f x /\ x ∈ l.
Proof.
  rewrite list_elem_of_In, in_map_iff.
  split; intros (x & E & Hx); exists x; rewrite ?list_elem_of_In in *; auto.
Qed.

Lemma worker_tasks_elem fl c n w t :
  t ∈ worker_tasks fl c n w <->
  match t with
  | TaskCompact hr => hr ∈ compaction_point c w
  | TaskSkip hr => hr ∈ drained_skip_set fl c w
  | TaskResetPinned i => i ∈ walk_indices n (claimer_offset c w) (seq 0 n)
  | TaskLog w' => w' = w
  end.
Proof.
  unfold worker_tasks.
  rewrite !elem_of_app, !elem_of_map_iff, list_elem_of_singleton.
  destruct t as [hr|hr|i|w']; split.
  all: try (intros [(x & E & H)|[(x & E & H)|[(x & E & H)|E]]];
            try discriminate; now injection E as ->).
  - intros H. left. eauto.
  - intros H. right; left. eauto.
  - intros H. right; right; left. eauto.
  - intros ->. right; right; right. reflexivity.
Qed.

Section AllTasks.
Context {OM : ObjectModel}.
Variable fl : Flags.
Variable c : Collector.
Variable st : G1State.
Hypothesis Hplan : valid_plan fl c st.
Hypothesis Hfresh : fresh_claimer st.

Let n := length (regions st).
Let all := flat_map (worker_tasks fl c n) (seq 0 (workers c)).

Lemma all_tasks_elem t :
  t ∈ all <->
  exists w, (w < workers c)%nat /\
    match t with
    | TaskCompact hr => hr ∈ compaction_point c w
    | TaskSkip hr => hr ∈ drained_skip_set fl c w
    | TaskResetPinned i => (i < n)%nat
    | TaskLog w' => w' = w
    end.
Proof.
  unfold all. rewrite elem_of_flat_map.
  split; intros (w & Hw & Ht); exists w.
  - apply elem_of_seq in Hw. split; [lia|].
    apply worker_tasks_elem in Ht. destruct t; auto.
    now apply walk_indices_turn in Ht.
  - split; [apply elem_of_seq; lia|].
    apply worker_tasks_elem. destruct t; auto. now apply walk_indices_turn.
Qed.

Lemma all_regions_assigned :
  task_regions all ++ serial_compaction_point c ≡ₚ assigned c.
Proof.
  unfold all. rewrite task_regions_workers.
  now apply (schedule_regions_assigned fl c st Hplan).
Qed.

(** A cycle whose steps are those of all the workers, in any order. *)
Lemma tasks_cycle ts :
  ts ≡ₚ all -> exactly_one_outcome fl c st (interleaved_cycle fl c ts st).
Proof.
  intros Hperm.
  assert (Hregions : task_regions ts ≡ₚ task_regions all).
  { unfold task_regions. now rewrite Hperm. }
  assert (Hnd : NoDup (task_regions ts ++ serial_compaction_point c)).
  { rewrite Hregions, all_regions_assigned. apply Hplan. }
  apply NoDup_app in Hnd as (Hnds & Hdisj & Hndserial).
  assert (Hin_assigned : forall x,
            x ∈ task_regions ts \/ x ∈ serial_compaction_point c ->
            x ∈ assigned c).
  { intros x Hx. rewrite <- all_regions_assigned, <- Hregions.
    now apply elem_of_app. }
  assert (Hbound : forall x, x ∈ assigned c -> (x < n)%nat) by apply Hplan.
  assert (Hunpinned : forall x, x ∈ assigned c -> pinned_at st x = false).
  { intros x Hx. destruct (pinned_at st x) eqn:E; [|reflexivity].
    apply (plan_pinned _ _ _ Hplan x (Hbound x Hx)) in E. contradiction. }
  assert (Hregion : forall i, TaskCompact i ∈ ts \/ TaskSkip i ∈ ts ->
                              i ∈ task_regions ts).
  { intros i Hi. unfold task_regions. apply elem_of_flat_map.
    destruct Hi as [Hi|Hi]; eexists; (split; [exact Hi|now left]). }
  assert (Helem : forall t, t ∈ ts <-> t ∈ all) by (intros t; now rewrite Hperm).
  split.
  - unfold interleaved_cycle. apply ends_bind.
    + apply run_tasks_ends. apply Forall_forall. intros t Ht.
      apply Helem, all_tasks_elem in Ht as (w & Hw & Ht).
      destruct t as [hr|hr|i|w']; simpl; auto.
      * apply Hbound, Hin_assigned. left. apply Hregion. left.
        apply Helem, all_tasks_elem. eauto.
      * apply Hbound, Hin_assigned. left. apply Hregion. right.
        apply Helem, all_tasks_elem. eauto.
    + intros st1 H1.
      destruct (run_tasks_Ok fl _ _ _ H1 Hnds) as (tr1 & (_ & Hl1 & _) & _).
      { intros i Hi. apply Hunpinned, Hin_assigned. now left. }
      apply (for_each_ends fl _ Compacted (compact_region_evolves fl)
               (compact_region_ends fl)).
      intros hr Hhr. rewrite Hl1. apply Hbound, Hin_assigned. now right.
  - intros st' H. unfold interleaved_cycle in H. inv_bind H. rename a into st1.
    destruct (run_tasks_Ok fl _ _ _ Ha Hnds) as (tr1 & He1 & _ & Hnd1 & Hm1).
    { intros i Hi. apply Hunpinned, Hin_assigned. now left. }
    destruct (for_each_evolves _ Compacted (compact_region_evolves fl) _ _ _ H)
      as [He2 _].
    pose proof (evolves_trans _ _ _ _ _ He1 He2) as He.
    set (tr := tr1 ++ map (fun hr => EvSet hr Compacted) (serial_compaction_point c))
      in *.
    assert (Hw : writes tr = writes tr1
              ++ map (fun hr => (hr, Compacted)) (serial_compaction_point c)).
    { unfold tr. now rewrite writes_app, writes_map_set. }
    assert (Hndw : NoDup (map fst (writes tr))).
    { rewrite Hw, map_app, map_map. simpl. rewrite map_id.
      apply NoDup_app. split; [exact Hnd1|]. split; [|exact Hndserial].
      intros x Hx Hx'. apply elem_of_map_fst in Hx as [s Hx]. apply Hm1 in Hx.
      destruct Hx as [[_ Hx]|[[_ Hx]|(_ & Hp & _)]].
      - apply (Hdisj x); [|exact Hx']. apply Hregion. now left.
      - apply (Hdisj x); [|exact Hx']. apply Hregion. now right.
      - rewrite Hunpinned in Hp; [discriminate|]. apply Hin_assigned. now right. }
    exists tr. split; [apply He|].
    intros i r Hr.
    assert (Hi : (i < n)%nat) by (eapply lookup_lt_Some; eauto).
    assert (Hpa : pinned_at st i = is_pinned r) by (unfold pinned_at; now rewrite Hr).
    assert (Hone : exists s, (i, s) ∈ writes tr /\
              s = if is_pinned r then PinnedReset
                  else if decide (i ∈ flat_map (skipping_compaction_set c)
                                        (seq 0 (workers c)))
                       then Skipped else Compacted).
    { destruct (is_pinned r) eqn:Hp.
      - exists PinnedReset. split; [|reflexivity]. rewrite Hw, elem_of_app. left.
        apply Hm1. right; right. repeat split; auto.
        apply Helem, all_tasks_elem. exists 0%nat. split; [apply Hplan|exact Hi].
      - assert (Hia : i ∈ assigned c).
        { destruct (decide (i ∈ assigned c)) as [?|Hn]; [assumption|].
          apply (plan_pinned _ _ _ Hplan i Hi) in Hn. congruence. }
        destruct (decide (i ∈ flat_map (skipping_compaction_set c)
                                (seq 0 (workers c)))) as [Hs|Hs].
        + exists Skipped. split; [|reflexivity]. rewrite Hw, elem_of_app. left.
          apply elem_of_flat_map in Hs as (w & Hw' & Hs).
          apply elem_of_seq in Hw'.
          apply Hm1. right; left. split; [reflexivity|].
          apply Helem, all_tasks_elem. exists w. split; [lia|].
          apply (skipped_is_drained fl c st Hplan); [exact Hs|lia].
        + exists Compacted. split; [|reflexivity]. rewrite Hw, elem_of_app.
          unfold assigned in Hia. rewrite !elem_of_app in Hia.
          destruct Hia as [Hq|[Hq|Hq]]; [|right|contradiction].
          * left. apply elem_of_flat_map in Hq as (w & Hw' & Hq).
            apply elem_of_seq in Hw'. apply Hm1. left. split; [reflexivity|].
            apply Helem, all_tasks_elem. exists w. split; [lia|exact Hq].
          * now apply elem_of_map_tag. }
    destruct Hone as (s & Hin & Hs).
    destruct He as (_ & _ & Hreg). destruct (Hreg i r Hr) as (r' & Hr' & _ & Hlast).
    assert (Hout : outcomes i tr = [s]).
    { unfold outcomes. now rewrite (filter_fst_unique _ i s Hndw Hin). }
    rewrite Hout in Hlast. simpl in Hlast.
    exists r'. split; [exact Hr'|]. split; congruence.
Qed.

End AllTasks.

(** ** A whole cycle under a valid plan *)

Section CycleClaim.
Context {OM : ObjectModel}.
Variable fl : Flags.

(** C4: under a plan that partitions the heap (every region is pinned or
    assigned to exactly one queue or drained skip set) and a fresh claimer,
    a full cycle ends, and when it returns every region has received
    exactly one terminal flag, which is the state it holds: pinned-reset for
    a pinned region, skipped for a region of a skip set, compacted for any
    other.  This holds when the workers run [work] one after the other in
    any order before the serial pass, and as well when their region steps
    are interleaved in any way before the serial pass. *)
Theorem cycle_one_outcome c st :
  valid_plan fl c st ->
  fresh_claimer st ->
  (forall sched, sched ≡ₚ seq 0 (workers c) ->
     exactly_one_outcome fl c st (full_cycle fl c sched st)) /\
  (forall ts,
     interleaving (map (worker_tasks fl c (length (regions st)))
                     (seq 0 (workers c))) ts ->
     exactly_one_outcome fl c st (interleaved_cycle fl c ts st)).
Proof.
  intros Hplan Hfresh. split.
  - intros sched Hperm.
    assert (E : full_cycle fl c sched st
                = interleaved_cycle fl c
                    (flat_map (worker_tasks fl c (length (regions st))) sched) st).
    { unfold full_cycle, interleaved_cycle. now rewrite schedule_run_tasks. }
    rewrite E. apply (tasks_cycle fl c st Hplan Hfresh). now rewrite Hperm.
  - intros ts Hts. apply (tasks_cycle fl c st Hplan Hfresh).
    apply interleaving_Permutation in Hts. now rewrite Hts, flat_map_concat_map.
Qed.

End CycleClaim.

(** * Further properties of the task *)

(** ** Sliding compaction of a region *)

Section Sliding.
Context {OM : ObjectModel}.
Variable fl : Flags.

(** The size of an object is read at and above its address. *)
Hypothesis oop_size_above : forall m m' obj,
  (forall x, obj <= x -> m' x = m x) -> oop_size m' obj = oop_size m obj.

Lemma frontier_after_le m : forall objs frontier,
  slides_down fl m frontier objs -> frontier <= frontier_after m frontier objs.
Proof.
  induction objs as [|obj objs IH]; intros frontier Hs; simpl in *; [lia|].
  destruct Hs as (H1 & _ & _ & Hs). specialize (IH _ Hs). lia.
Qed.

(** One object under [apply], in a memory that still agrees with the
    original one from the frontier up. *)
Lemma apply_slides m mc frontier obj :
  (forall x, frontier <= x -> mc x = m x) ->
  frontier <= destination_of m obj -> destination_of m obj <= obj ->
  (ASSERT fl = true -> forwardee m obj <> NULL ->
     forwardee m obj <> obj /\ (2 <= oop_size m obj)%nat /\ klass m obj <> NULL) ->
  exists m1,
    apply fl mc obj = Ok (oop_size m obj, m1) /\
    (forall x, x < frontier -> m1 x = mc x) /\
    (forall x, destination_of m obj + Z.of_nat (oop_size m obj) <= x ->
               m1 x = m x) /\
    m1 (destination_of m obj)
      = (if forwardee m obj =? NULL then m obj else prototype_mark) /\
    (forall k, 1 <= k < Z.of_nat (oop_size m obj) ->
               m1 (destination_of m obj + k) = m (obj + k)).
Proof.
  intros Hagree Hlo Hhi Hdbg.
  assert (Hobj : frontier <= obj) by lia.
  assert (Hsize : oop_size mc obj = oop_size m obj).
  { apply oop_size_above. intros x Hx. apply Hagree. lia. }
  assert (Hfwd : forwardee mc obj = forwardee m obj).
  { unfold forwardee, mark. rewrite Hagree by lia. reflexivity. }
  unfold destination_of in *. unfold apply. rewrite Hsize, Hfwd.
  destruct (Z.eqb_spec (forwardee m obj) NULL) as [E|E].
  - exists mc. split; [reflexivity|]. split; [auto|].
    split; [intros x Hx; apply Hagree; lia|].
    split; [apply Hagree; lia|]. intros k Hk. apply Hagree. lia.
  - pose proof (oop_size_pos m obj) as Hpos.
    set (dest := forwardee m obj) in *. set (size := oop_size m obj) in *.
    rewrite assert_ok; simpl.
    2: { intros Hd. destruct (Hdbg Hd E) as (Hne & _).
         destruct (Z.eqb_spec obj dest); [congruence|reflexivity]. }
    rewrite assert_ok; simpl.
    2: { intros Hd. destruct (Hdbg Hd E) as (_ & H2 & Hk).
         rewrite klass_after_move by exact H2.
         unfold klass in *. rewrite Hagree by lia.
         destruct (Z.eqb_spec (m (obj + 1)) NULL); [contradiction|reflexivity]. }
    eexists. split; [reflexivity|]. unfold init_mark. split; [|split; [|split]].
    + intros x Hx. rewrite store_ne by lia.
      apply aligned_conjoint_words_outside. lia.
    + intros x Hx. rewrite store_ne by lia.
      rewrite aligned_conjoint_words_outside by lia. apply Hagree. lia.
    + apply store_eq.
    + intros k Hk. rewrite store_ne by lia.
      replace k with (Z.of_nat (Z.to_nat k)) by lia.
      rewrite aligned_conjoint_words_inside by lia. apply Hagree. lia.
Qed.

Lemma scan_marked_slides bm limit m : forall fuel next_addr mc frontier,
  limit - next_addr <= Z.of_nat fuel ->
  frontier <= next_addr ->
  (forall x, frontier <= x -> mc x = m x) ->
  slides_down fl m frontier (walk_objects fuel bm limit next_addr m) ->
  exists m',
    scan_marked fl fuel bm limit next_addr mc = Ok m' /\
    (forall x, x < frontier -> m' x = mc x) /\
    (forall x, frontier_after m frontier (walk_objects fuel bm limit next_addr m) <= x ->
               m' x = m x) /\
    Forall (placed m m') (walk_objects fuel bm limit next_addr m).
Proof.
  induction fuel as [|fuel IH]; intros next_addr mc frontier Hfuel Hnext Hagree Hs;
    simpl in *; destruct (Z.leb_spec limit next_addr) as [Hl|Hl]; try lia.
  - exists mc. split; [reflexivity|]. split; [auto|]. split; [auto|constructor].
  - exists mc. split; [reflexivity|]. split; [auto|]. split; [auto|constructor].
  - destruct (is_marked bm next_addr).
    + simpl in Hs. destruct Hs as (Hlo & Hhi & Hdbg & Hs).
      destruct (apply_slides m mc frontier next_addr Hagree Hlo Hhi Hdbg)
        as (m1 & Happly & Hbelow & Habove & Hhead & Hwords).
      rewrite Happly. simpl.
      pose proof (oop_size_pos m next_addr) as Hpos.
      destruct (IH (next_addr + Z.of_nat (oop_size m next_addr)) m1
                  (destination_of m next_addr + Z.of_nat (oop_size m next_addr)))
        as (m' & Hscan & Hbelow' & Habove' & Hplaced); try lia; auto.
      exists m'. split; [exact Hscan|]. split; [|split; [exact Habove'|]].
      * intros x Hx. rewrite Hbelow' by lia. now apply Hbelow.
      * constructor; [|exact Hplaced]. split.
        -- rewrite Hbelow' by lia. exact Hhead.
        -- intros k Hk. rewrite Hbelow' by lia. now apply Hwords.
    + apply IH; auto; lia.
Qed.

(** X1: sliding compaction of a region is right.  When the live objects of
    the region, in address order, go to destinations that are packed upwards
    from [frontier] and never above the object itself, [compact_region]
    returns, every live object is found at its destination with its words
    as they were before the compaction and a fresh header if it moved, and
    no word below [frontier] or from the end of the last placed object on is
    written.  No object is overwritten before it has been read, although
    destinations may overlap sources. *)
Theorem compact_region_slides hr st r frontier :
  regions st !! hr = Some r ->
  (ASSERT fl = true -> is_pinned r = false /\ is_humongous r = false) ->
  frontier <= bottom r ->
  slides_down fl (heap st) frontier
    (walk_objects (Z.to_nat (top r - bottom r)) (mark_bitmap st) (top r)
       (bottom r) (heap st)) ->
  exists st',
    compact_region fl hr st = Ok st' /\
    Forall (placed (heap st) (heap st'))
      (walk_objects (Z.to_nat (top r - bottom r)) (mark_bitmap st) (top r)
         (bottom r) (heap st)) /\
    (forall x, x < frontier -> heap st' x = heap st x) /\
    (forall x,
       frontier_after (heap st) frontier
         (walk_objects (Z.to_nat (top r - bottom r)) (mark_bitmap st) (top r)
            (bottom r) (heap st)) <= x ->
       heap st' x = heap st x).
Proof.
  intros Hr Ha Hf Hs.
  destruct (scan_marked_slides (mark_bitmap st) (top r) (heap st)
              (Z.to_nat (top r - bottom r)) (bottom r) (heap st) frontier)
    as (m' & Hscan & Hbelow & Habove & Hplaced); auto; try lia.
  assert (H1 : apply_to_marked_objects fl hr st = Ok (set_heap m' st)).
  { unfold apply_to_marked_objects. rewrite (region_at_Some _ _ _ Hr). simpl.
    now rewrite Hscan. }
  rewrite (compact_region_step fl hr st r _ Hr Ha H1).
  eexists. split; [reflexivity|]. simpl. auto.
Qed.

End Sliding.

(** ** Regions in which nothing moves *)

Section Stationary.
Context {OM : ObjectModel}.
Variable fl : Flags.

Lemma scan_marked_stationary bm limit m : forall fuel next_addr,
  limit - next_addr <= Z.of_nat fuel ->
  (forall a, next_addr <= a < limit -> is_marked bm a = true ->
             forwardee m a = NULL) ->
  scan_marked fl fuel bm limit next_addr m = Ok m.
Proof.
  induction fuel as [|fuel IH]; intros next_addr Hfuel Hnull; simpl;
    destruct (Z.leb_spec limit next_addr) as [Hl|Hl]; try reflexivity; try lia.
  destruct (is_marked bm next_addr) eqn:Em.
  - assert (E : apply fl m next_addr = Ok (oop_size m next_addr, m)).
    { unfold apply. rewrite (Hnull next_addr) by (auto; lia). reflexivity. }
    rewrite E. simpl. pose proof (oop_size_pos m next_addr).
    apply IH; [lia|]. intros a Ha. apply Hnull. lia.
  - apply IH; [lia|]. intros a Ha. apply Hnull. lia.
Qed.

(** X2: a region in which no live object has a forwarding pointer, and so an
    empty region or one without a marked address, is compacted without a
    write to the heap: [compact_region] returns, in any build, with the heap
    it was given and the region flipped to compacted. *)
Theorem compact_region_stationary hr st r :
  regions st !! hr = Some r ->
  (ASSERT fl = true -> is_pinned r = false /\ is_humongous r = false) ->
  (forall a, bottom r <= a < top r -> is_marked (mark_bitmap st) a = true ->
             forwardee (heap st) a = NULL) ->
  exists st',
    compact_region fl hr st = Ok st' /\
    heap st' = heap st /\
    regions st' !! hr = Some (after_compaction r).
Proof.
  intros Hr Ha Hnull.
  assert (H1 : apply_to_marked_objects fl hr st = Ok (set_heap (heap st) st)).
  { unfold apply_to_marked_objects. rewrite (region_at_Some _ _ _ Hr). simpl.
    rewrite scan_marked_stationary; [reflexivity|lia|exact Hnull]. }
  rewrite (compact_region_step fl hr st r _ Hr Ha H1).
  eexists. split; [reflexivity|]. simpl. split; [reflexivity|].
  apply list_lookup_insert_eq. eapply lookup_lt_Some; eauto.
Qed.

End Stationary.

(** ** Sliding compaction of a queue of regions *)

Section QueueSliding.
Context {OM : ObjectModel}.
Variable fl : Flags.

Hypothesis oop_size_above : forall m m' obj,
  (forall x, obj <= x -> m' x = m x) -> oop_size m' obj = oop_size m obj.

Lemma walk_objects_bitmap bm bm' limit m : forall fuel next_addr,
  (forall x, next_addr <= x -> bm' x = bm x) ->
  walk_objects fuel bm' limit next_addr m = walk_objects fuel bm limit next_addr m.
Proof.
  induction fuel as [|fuel IH]; intros next_addr Hbm; simpl; [reflexivity|].
  destruct (limit <=? next_addr); [reflexivity|].
  unfold is_marked. rewrite Hbm by lia.
  destruct (bm next_addr).
  - f_equal. apply IH. intros x Hx. apply Hbm. lia.
  - apply IH. intros x Hx. apply Hbm. lia.
Qed.

Lemma scan_marked_bitmap bm bm' limit : forall fuel next_addr m,
  (forall x, next_addr <= x -> bm' x = bm x) ->
  scan_marked fl fuel bm' limit next_addr m = scan_marked fl fuel bm limit next_addr m.
Proof.
  induction fuel as [|fuel IH]; intros next_addr m Hbm; simpl; [reflexivity|].
  destruct (limit <=? next_addr); [reflexivity|].
  unfold is_marked. rewrite Hbm by lia.
  destruct (bm next_addr).
  - destruct (apply fl m next_addr) as [[size m1]| | |]; simpl; try reflexivity.
    apply IH. intros x Hx. apply Hbm. lia.
  - apply IH. intros x Hx. apply Hbm. lia.
Qed.

(** The objects that slide down from a frontier end up below the next
    frontier. *)
Lemma placed_below_frontier m : forall objs frontier obj,
  slides_down fl m frontier objs -> obj ∈ objs ->
  destination_of m obj + Z.of_nat (oop_size m obj)
    <= frontier_after m frontier objs.
Proof.
  induction objs as [|o objs IH]; intros frontier obj Hs Hin; [inversion Hin|].
  simpl in Hs. destruct Hs as (_ & _ & _ & Hs). simpl.
  apply elem_of_cons in Hin as [->|Hin].
  - now apply (frontier_after_le fl).
  - now apply IH.
Qed.

Lemma placed_kept m m1 m' frontier objs :
  slides_down fl m frontier objs ->
  (forall x, x < frontier_after m frontier objs -> m' x = m1 x) ->
  Forall (placed m m1) objs -> Forall (placed m m') objs.
Proof.
  intros Hs Hkeep Hp. apply Forall_forall. intros obj Hin.
  pose proof (placed_below_frontier m objs frontier obj Hs Hin) as Hb.
  pose proof (oop_size_pos m obj) as Hpos.
  rewrite Forall_forall in Hp. destruct (Hp obj Hin) as [Hh Hw].
  split.
  - rewrite Hkeep by lia. exact Hh.
  - intros k Hk. rewrite Hkeep by lia. now apply Hw.
Qed.

Lemma for_each_compact_slides (st : G1State) : forall q sc frontier,
  queue_slides fl st frontier q ->
  (forall x, frontier <= x -> heap sc x = heap st x) ->
  (forall j, j ∈ q -> regions sc !! j = regions st !! j) ->
  (forall j rj x, j ∈ q -> regions st !! j = Some rj -> bottom rj <= x ->
     mark_bitmap sc x = mark_bitmap st x) ->
  exists st',
    for_each (compact_region fl) q sc = Ok st' /\
    Forall (placed (heap st) (heap st')) (flat_map (region_objects st) q) /\
    (forall x, x < frontier -> heap st' x = heap sc x) /\
    (forall x, queue_frontier st frontier q <= x -> heap st' x = heap st x).
Proof.
  induction q as [|hr q IH]; intros sc frontier Hq Hagree Hregs Hbm.
  - exists sc. simpl. split; [reflexivity|]. split; [constructor|]. auto.
  - simpl in Hq. destruct (regions st !! hr) as [r|] eqn:Hr; [|contradiction].
    destruct Hq as (Ha & Hf & Hs & Hord & Hq).
    assert (Hrc : regions sc !! hr = Some r) by (rewrite Hregs; [exact Hr|now left]).
    unfold region_objects in Hs. rewrite Hr in Hs.
    destruct (scan_marked_slides fl oop_size_above (mark_bitmap st) (top r) (heap st)
                (Z.to_nat (top r - bottom r)) (bottom r) (heap sc) frontier)
      as (m1 & Hscan & Hbelow & Habove & Hplaced); auto; try lia.
    assert (H1 : apply_to_marked_objects fl hr sc = Ok (set_heap m1 sc)).
    { unfold apply_to_marked_objects. rewrite (region_at_Some _ _ _ Hrc). simpl.
      rewrite (scan_marked_bitmap (mark_bitmap st)), Hscan; [reflexivity|].
      intros x Hx. apply (Hbm hr r); auto. now left. }
    simpl. rewrite (compact_region_step fl hr sc r _ Hrc Ha H1). simpl.
    set (objs := walk_objects (Z.to_nat (top r - bottom r)) (mark_bitmap st)
                   (top r) (bottom r) (heap st)) in *.
    pose proof (frontier_after_le fl (heap st) objs frontier Hs) as Hle.
    rewrite Forall_forall in Hord.
    destruct (IH (mkState m1
                    (if G1VerifyBitmaps fl
                     then clear_range (bottom r) (hr_end r) (mark_bitmap sc)
                     else mark_bitmap sc)
                    (<[hr := after_compaction r]> (regions sc)) (claims sc)
                    (trace sc ++ [EvSet hr Compacted]))
                (frontier_after (heap st) frontier objs))
      as (st' & Hrun & Hp' & Hbelow' & Habove').
    + unfold region_objects in Hq. rewrite Hr in Hq. exact Hq.
    + exact Habove.
    + intros j Hj. simpl. destruct (Hord j Hj) as [Hne _].
      rewrite list_lookup_insert_ne by congruence. apply Hregs. now right.
    + intros j rj x Hj Hrj Hx. simpl.
      rewrite <- (Hbm j rj x) by (auto; now right).
      destruct (G1VerifyBitmaps fl); [|reflexivity].
      unfold clear_range. destruct (Hord j Hj) as [_ Hend]. rewrite Hrj in Hend.
      destruct (Z.ltb_spec x (hr_end r)); [lia|]. now rewrite andb_false_r.
    + exists st'. split; [exact Hrun|]. split; [|split].
      * unfold region_objects at 1. rewrite Hr. fold objs.
        apply Forall_app. split; [|exact Hp'].
        apply (placed_kept (heap st) m1 (heap st') frontier objs Hs); auto.
      * intros x Hx. rewrite Hbelow' by lia. now apply Hbelow.
      * intros x Hx. apply Habove'. unfold region_objects in Hx.
        now rewrite Hr in Hx.
Qed.

(** X13: the compaction of a queue of regions in queue order is right.
    When the regions of the queue lie one above the other and their live
    objects, region after region, go to destinations packed upwards from
    [frontier], never above the object itself, the loop over the queue
    returns, every live object of every region is found at its destination
    with its words as they were before the loop, and no word below
    [frontier] or from the end of the last placed object on is written.
    Objects may move into regions compacted earlier in the queue. *)
Theorem compaction_queue_slides q st frontier :
  queue_slides fl st frontier q ->
  exists st',
    for_each (compact_region fl) q st = Ok st' /\
    Forall (placed (heap st) (heap st')) (flat_map (region_objects st) q) /\
    (forall x, x < frontier -> heap st' x = heap st x) /\
    (forall x, queue_frontier st frontier q <= x -> heap st' x = heap st x).
Proof.
  intros Hq. apply (for_each_compact_slides st q st frontier Hq); auto.
Qed.

End QueueSliding.

(** ** The assertions and the builds *)

Lemma aligned_conjoint_words_self a count m x :
  aligned_conjoint_words a a count m x = m x.
Proof.
  destruct (Z_lt_le_dec x a) as [Hlt|Hge].
  - apply aligned_conjoint_words_outside. lia.
  - destruct (Z_lt_le_dec x (a + Z.of_nat count)) as [Hin|Hout].
    + replace x with (a + Z.of_nat (Z.to_nat (x - a))) by lia.
      apply aligned_conjoint_words_inside. lia.
    + apply aligned_conjoint_words_outside. lia.
Qed.

Section Builds.
Context {OM : ObjectModel}.
Variable fl : Flags.

(** X3: [apply] stops on the assertion "should have a class" exactly when
    asserts are compiled in, the object moves to another address, and the
    class word read at the destination after the copy is null.  For an
    object of two words or more that word is the class word the object had
    before the move. *)
Theorem apply_class_assert m obj :
  (apply fl m obj = AssertionFailure "should have a class"
   <-> ASSERT fl = true /\ forwardee m obj <> NULL /\ forwardee m obj <> obj /\
       klass (init_mark (forwardee m obj)
                (aligned_conjoint_words obj (forwardee m obj) (oop_size m obj) m))
             (forwardee m obj) = NULL) /\
  ((2 <= oop_size m obj)%nat ->
   (apply fl m obj = AssertionFailure "should have a class"
    <-> ASSERT fl = true /\ forwardee m obj <> NULL /\ forwardee m obj <> obj /\
        klass m obj = NULL)).
Proof.
  assert (H : apply fl m obj = AssertionFailure "should have a class"
   <-> ASSERT fl = true /\ forwardee m obj <> NULL /\ forwardee m obj <> obj /\
       klass (init_mark (forwardee m obj)
                (aligned_conjoint_words obj (forwardee m obj) (oop_size m obj) m))
             (forwardee m obj) = NULL).
  { unfold apply, assert.
    destruct (Z.eqb_spec (forwardee m obj) NULL) as [E|E].
    - split; [discriminate|]. intros (_ & H & _). contradiction.
    - destruct (ASSERT fl); simpl.
      + destruct (Z.eqb_spec obj (forwardee m obj)) as [Eo|Eo]; simpl.
        * split; [discriminate|]. intros (_ & _ & H & _). congruence.
        * match goal with |- context [?a =? NULL] => destruct (Z.eqb_spec a NULL) end;
            simpl.
          -- split; [|reflexivity]. intros _. repeat split; auto.
          -- split; [discriminate|]. intros (_ & _ & _ & H). contradiction.
      + split; [discriminate|]. intros (H & _). discriminate. }
  split; [exact H|]. intros Hsize. rewrite H, klass_after_move by exact Hsize.
  reflexivity.
Qed.

(** X4: [do_heap_region] stops on its assertion exactly when asserts are
    compiled in and the region is pinned, starts a humongous object and has
    no mark at its bottom.  The pinned test comes first: a region that is
    not pinned never fails, marked or not. *)
Theorem do_heap_region_assert r st hr :
  regions st !! r = Some hr ->
  (do_heap_region fl r st = AssertionFailure "must be, otherwise reclaimed earlier"
   <-> ASSERT fl = true /\ is_pinned hr = true /\ is_starts_humongous hr = true /\
       is_marked (mark_bitmap st) (bottom hr) = false) /\
  (is_pinned hr = false -> forall msg, do_heap_region fl r st <> AssertionFailure msg).
Proof.
  intros Hr. unfold do_heap_region, assert, reset_pinned_after_full_gc.
  rewrite (region_at_Some _ _ _ Hr). simpl.
  destruct (is_pinned hr); simpl.
  - split; [|discriminate].
    destruct (ASSERT fl), (is_starts_humongous hr),
      (is_marked (mark_bitmap st) (bottom hr)); simpl;
      rewrite ?(region_at_Some _ _ _ Hr); simpl;
      (split; [try discriminate; auto | try reflexivity;
               intros (? & ? & ? & ?); discriminate]).
  - split; [|intros _ msg; discriminate].
    split; [discriminate|]. intros (_ & H & _). discriminate.
Qed.

(** X5: in a product build a move of an object to its own address is not
    caught: [apply] returns the size, and the only word that changes is the
    header of the object, which is reinitialized. *)
Theorem apply_self_move_product m obj :
  ASSERT fl = false -> forwardee m obj = obj -> obj <> NULL ->
  exists m',
    apply fl m obj = Ok (oop_size m obj, m') /\
    m' obj = prototype_mark /\
    forall a, a <> obj -> m' a = m a.
Proof.
  intros Hp Hself Hnn. unfold apply, assert. rewrite Hself, Hp.
  destruct (Z.eqb_spec obj NULL) as [E|_]; [contradiction|]. simpl.
  eexists. split; [reflexivity|]. unfold init_mark. split; [apply store_eq|].
  intros a Ha. rewrite store_ne by exact Ha. apply aligned_conjoint_words_self.
Qed.

(** X6: in a product build [compact_region] always returns on a region of
    the region table, pinned and humongous regions included: the walk over
    the marked objects comes to an end, nothing is checked, and the region
    is flipped to compacted. *)
Theorem compact_region_product hr st r :
  ASSERT fl = false -> regions st !! hr = Some r ->
  exists st',
    compact_region fl hr st = Ok st' /\
    regions st' = <[hr := after_compaction r]> (regions st) /\
    claims st' = claims st /\
    trace st' = trace st ++ [EvSet hr Compacted].
Proof.
  intros Hp Hr.
  destruct (scan_marked_total fl Hp (mark_bitmap st) (top r)
              (Z.to_nat (top r - bottom r)) (bottom r) (heap st)) as [m1 Hscan];
    [lia|].
  assert (H1 : apply_to_marked_objects fl hr st = Ok (set_heap m1 st)).
  { unfold apply_to_marked_objects. rewrite (region_at_Some _ _ _ Hr). simpl.
    now rewrite Hscan. }
  rewrite (compact_region_step fl hr st r _ Hr) by (exact H1 || congruence).
  eexists. split; [reflexivity|]. simpl. auto.
Qed.

End Builds.

(** ** The passes of a worker, one by one *)

Lemma outcomes_map_set_notin i s q :
  i ∉ q -> outcomes i (map (fun hr => EvSet hr s) q) = [].
Proof.
  intros Hi. unfold outcomes. rewrite writes_map_set, filter_fst_none; [reflexivity|].
  now rewrite map_map, map_id.
Qed.

Lemma existsb_pointwise {A} (f g : A -> bool) l :
  (forall a, f a = g a) -> existsb f l = existsb g l.
Proof.
  intros Hfg. induction l as [|a l IH]; simpl; [reflexivity|].
  now rewrite Hfg, IH.
Qed.

Lemma for_each_skip_heap q : forall st st',
  for_each process_skipping_compaction_region q st = Ok st' -> heap st' = heap st.
Proof.
  induction q as [|hr q IH]; intros st st' H; simpl in H.
  - now injection H as <-.
  - inv_bind H. destruct (process_skipping_Ok _ _ _ Ha) as [r Hr].
    rewrite (process_skipping_step hr st r Hr) in Ha. injection Ha as <-.
    now rewrite (IH _ _ H).
Qed.

Section Passes.
Context {OM : ObjectModel}.
Variable fl : Flags.


Lemma par_iterate_regions n start : forall counts st st',
  par_iterate (do_heap_region fl) n start counts st = Ok st' ->
  forall i r, regions st !! i = Some r ->
    regions st' !! i =
      Some (if decide (is_pinned r = true /\ claims st i = false /\
                       i ∈ walk_indices n start counts)
            then set_state PinnedReset r else r).
Proof.
  induction counts as [|k counts IH]; intros st st' H i r Hr; simpl in H.
  - injection H as <-. rewrite Hr. f_equal.
    destruct (decide _) as [(_ & _ & Hin)|_]; [inversion Hin|reflexivity].
  - set (index := ((start + k) mod n)%nat) in *.
    unfold is_region_claimed in H. destruct (claims st index) eqn:Ec.
    + rewrite (IH _ _ H i r Hr). f_equal.
      destruct (decide _) as [(Hp & Hc & Hin)|Hn], (decide _) as [(Hp' & Hc' & Hin')|Hn'];
        try reflexivity; exfalso.
      * apply Hn'. repeat split; auto. simpl. now right.
      * apply Hn. repeat split; auto. simpl in Hin'.
        apply elem_of_cons in Hin' as [E|?]; [|assumption].
        rewrite E in Hc'. unfold index in Ec. congruence.
    + inv_bind H. destruct a as [res st1].
      destruct (do_heap_region_Ok fl _ _ _ _ Ha) as (hr & Hhr & Hassert).
      rewrite (do_heap_region_step fl _ _ hr Hhr Hassert) in Ha.
      injection Ha as <- Est1. simpl in Hhr.
      assert (Hregs : regions st1 =
                if is_pinned hr
                then <[index := set_state PinnedReset hr]> (regions st)
                else regions st)
        by (subst st1; destruct (is_pinned hr); reflexivity).
      assert (Hcl : forall j, claims st1 j =
                if (j =? index)%nat then true else claims st j)
        by (subst st1; destruct (is_pinned hr); reflexivity).
      clear Est1.
      destruct (decide (i = index)) as [->|Hne].
      * assert (hr = r) as -> by congruence.
        assert (Hr1 : regions st1 !! index
                      = Some (if is_pinned r then set_state PinnedReset r else r)).
        { rewrite Hregs. destruct (is_pinned r); [|exact Hr].
          apply list_lookup_insert_eq. eapply lookup_lt_Some; eauto. }
        rewrite (IH _ _ H index _ Hr1). f_equal.
        destruct (decide (is_pinned (if is_pinned r then set_state PinnedReset r
                                      else r) = true /\
                          claims st1 index = false /\
                          index ∈ walk_indices n start counts))
          as [(_ & Hc & _)|_].
        { rewrite Hcl, Nat.eqb_refl in Hc. discriminate. }
        destruct (decide (is_pinned r = true /\ claims st index = false /\
                          index ∈ walk_indices n start (k :: counts)))
          as [(Hp & _)|Hn].
        -- now rewrite Hp.
        -- destruct (is_pinned r); [|reflexivity].
           exfalso. apply Hn. repeat split; auto. simpl. now left.
      * assert (Hr1 : regions st1 !! i = Some r).
        { rewrite Hregs. destruct (is_pinned hr); [|exact Hr].
          rewrite list_lookup_insert_ne by congruence. exact Hr. }
        assert (Hci : claims st1 i = claims st i).
        { rewrite Hcl. now destruct (Nat.eqb_spec i index). }
        rewrite (IH _ _ H i r Hr1). f_equal.
        destruct (decide (is_pinned r = true /\ claims st1 i = false /\
                          i ∈ walk_indices n start counts))
          as [(Hp & Hc & Hin)|Hn],
          (decide (is_pinned r = true /\ claims st i = false /\
                   i ∈ walk_indices n start (k :: counts)))
          as [(Hp' & Hc' & Hin')|Hn'];
          try reflexivity; exfalso.
        -- apply Hn'. repeat split; auto; [congruence|]. simpl. now right.
        -- apply Hn. repeat split; auto; [congruence|]. simpl in Hin'.
           apply elem_of_cons in Hin' as [E|?]; [|assumption].
           exfalso. apply Hne. exact E.
Qed.

(** X8: the heap walk of a worker with the pinned-region resetter writes no
    heap word and no bit of the bitmap, and it changes the region table in
    one way only: every pinned region that was not claimed yet gets the
    state pinned-reset, with all its other fields as they were. *)
Theorem pinned_pass_effect hrclaimer w st st' :
  heap_region_par_iterate_from_worker_offset (do_heap_region fl) hrclaimer w st
    = Ok st' ->
  heap st' = heap st /\
  mark_bitmap st' = mark_bitmap st /\
  forall i r, regions st !! i = Some r ->
    regions st' !! i =
      Some (if is_pinned r && negb (claims st i)
            then set_state PinnedReset r else r).
Proof.
  intros H. destruct (pinned_pass_Ok fl _ _ _ _ H) as (_ & Hh & Hb & _).
  split; [exact Hh|]. split; [exact Hb|].
  intros i r Hr. unfold heap_region_par_iterate_from_worker_offset in H.
  rewrite (par_iterate_regions _ _ _ _ _ H i r Hr). f_equal.
  assert (Hi : (i < length (regions st))%nat) by (eapply lookup_lt_Some; eauto).
  destruct (decide _) as [(Hp & Hc & _)|Hn].
  - now rewrite Hp, Hc.
  - destruct (is_pinned r) eqn:Hp, (claims st i) eqn:Hc; try reflexivity.
    exfalso. apply Hn. repeat split; auto. now apply walk_indices_turn.
Qed.

(** X9: [work] leaves alone every region that is neither in the worker's
    compaction queue, nor in the skip set it drains, nor pinned: the record
    of such a region is the same after [work].  In particular, under a zero
    [MarkSweepDeadRatio] the regions of the skip set are not touched. *)
Theorem work_leaves_other_regions c w st st' i r :
  work fl c w st = Ok st' ->
  regions st !! i = Some r ->
  i ∉ compaction_point c w ->
  i ∉ drained_skip_set fl c w ->
  is_pinned r = false ->
  regions st' !! i = Some r.
Proof.
  intros H Hr Hq Hs Hp.
  destruct (work_Ok fl _ _ _ _ H) as [(_ & _ & Hreg) _].
  destruct (Hreg i r Hr) as (r' & Hr' & _ & Hlast).
  assert (Hout : outcomes i (work_events fl c w st) = []).
  { unfold work_events. rewrite !outcomes_app.
    rewrite outcomes_map_set_notin by exact Hq.
    rewrite outcomes_reset_pinned by apply claimed_slice_NoDup.
    unfold pinned_at. rewrite Hr, Hp.
    unfold drained_skip_set in Hs.
    destruct (0 <? MarkSweepDeadRatio fl).
    - rewrite outcomes_map_set_notin by exact Hs.
      now destruct (decide _).
    - now destruct (decide _). }
  rewrite Hout in Hlast. simpl in Hlast. congruence.
Qed.

(** X10: only the compactions of [work] write to the heap: the heap after
    [work] is the heap after the compaction of the worker's queue, since
    neither the skip handler nor the pinned-region resetter moves an object.
    A worker whose compaction queue is empty writes no heap word. *)
Theorem work_heap_after_compactions c w st st' :
  work fl c w st = Ok st' ->
  (exists st1,
     for_each (compact_region fl) (compaction_point c w) st = Ok st1 /\
     heap st' = heap st1) /\
  (compaction_point c w = [] ->
   heap st' = heap st /\ forall b, byte_at (heap st') b = byte_at (heap st) b).
Proof.
  intros H. unfold work in H. inv_bind H. inv_bind H. inv_bind H.
  injection H as <-.
  destruct (pinned_pass_Ok fl _ _ _ _ Ha1) as (_ & Hh & _).
  assert (E1 : heap a0 = heap a).
  { destruct (0 <? MarkSweepDeadRatio fl);
      [now apply for_each_skip_heap in Ha0|now injection Ha0 as <-]. }
  assert (E : heap (log_task w a1) = heap a) by (simpl; congruence).
  split; [exists a; split; [exact Ha|exact E]|].
  intros Hq. rewrite Hq in Ha. simpl in Ha. injection Ha as <-.
  split; [exact E|]. intros b. now rewrite E.
Qed.

(** X11: once the [work] of one worker has returned, the heap walk of
    [work] for another worker finds every region claimed: it hands no
    region to the pinned-region resetter, and all that this second [work]
    leaves in the trace are its compactions, its skips and its timing
    record. *)
Theorem work_after_work c w1 w2 st st1 st2 :
  work fl c w1 st = Ok st1 ->
  work fl c w2 st1 = Ok st2 ->
  trace st2 = trace st1
    ++ map (fun hr => EvSet hr Compacted) (compaction_point c w2)
    ++ (if 0 <? MarkSweepDeadRatio fl
        then map (fun hr => EvSet hr Skipped) (skipping_compaction_set c w2)
        else [])
    ++ [EvLogTask w2].
Proof.
  intros H1 H2.
  destruct (work_Ok fl _ _ _ _ H1) as [(_ & Hl & _) Hc1].
  destruct (work_Ok fl _ _ _ _ H2) as [(Ht & _) _].
  rewrite Ht. unfold work_events.
  assert (Hnil : worker_slice (claimer_offset c) w2 st1 = []).
  { apply elem_of_nil_inv. intros i Hi. unfold worker_slice in Hi.
    apply claimed_slice_elem in Hi as [Hf Hin].
    apply walk_indices_turn in Hin. rewrite Hl in Hin.
    assert (claims st1 i = true) by (apply Hc1; now right). congruence. }
  now rewrite Hnil.
Qed.

Lemma extent_of_insert st hr r r' j x :
  regions st !! hr = Some r -> bottom r' = bottom r -> hr_end r' = hr_end r ->
  extent_of (set_regions (<[hr := r']> (regions st)) st) j x = extent_of st j x.
Proof.
  intros Hr Hb He. unfold extent_of. simpl.
  destruct (decide (j = hr)) as [->|Hne].
  - rewrite list_lookup_insert_eq by (eapply lookup_lt_Some; eauto).
    now rewrite Hr, Hb, He.
  - now rewrite list_lookup_insert_ne by congruence.
Qed.

Lemma compact_region_bitmap hr st st' :
  compact_region fl hr st = Ok st' ->
  (forall j x, extent_of st' j x = extent_of st j x) /\
  forall x, mark_bitmap st' x =
    if G1VerifyBitmaps fl && extent_of st hr x then false else mark_bitmap st x.
Proof.
  intros H. destruct (compact_region_Ok fl _ _ _ H) as (r & st1 & Hr & Ha & H1).
  rewrite (compact_region_step fl hr st r st1 Hr Ha H1) in H. injection H as <-.
  split.
  - intros j x. now apply (extent_of_insert st hr r (after_compaction r)).
  - intros x. simpl. unfold extent_of, clear_range. rewrite Hr.
    now destruct (G1VerifyBitmaps fl).
Qed.

Lemma process_skipping_bitmap hr st st' :
  process_skipping_compaction_region hr st = Ok st' ->
  (forall j x, extent_of st' j x = extent_of st j x) /\
  forall x, mark_bitmap st' x =
    if true && extent_of st hr x then false else mark_bitmap st x.
Proof.
  intros H. destruct (process_skipping_Ok _ _ _ H) as (r & Hr).
  rewrite (process_skipping_step hr st r Hr) in H. injection H as <-.
  split.
  - intros j x. now apply (extent_of_insert st hr r (set_state Skipped r)).
  - intros x. simpl. unfold extent_of, clear_range. now rewrite Hr.
Qed.

Lemma for_each_bitmap body (clears : bool) :
  (forall hr st st', body hr st = Ok st' ->
     (forall j x, extent_of st' j x = extent_of st j x) /\
     forall x, mark_bitmap st' x =
       if clears && extent_of st hr x then false else mark_bitmap st x) ->
  forall q st st', for_each body q st = Ok st' ->
    (forall j x, extent_of st' j x = extent_of st j x) /\
    forall x, mark_bitmap st' x =
      if clears && existsb (fun hr => extent_of st hr x) q
      then false else mark_bitmap st x.
Proof.
  intros Hbody. induction q as [|hr q IH]; intros st st' H; simpl in H.
  - injection H as <-. split; [reflexivity|]. intros x. simpl.
    now rewrite andb_false_r.
  - inv_bind H. destruct (Hbody _ _ _ Ha) as [He1 Hb1].
    destruct (IH _ _ H) as [He Hb]. split.
    + intros j x. now rewrite He, He1.
    + intros x. rewrite Hb, Hb1. simpl.
      rewrite (existsb_pointwise _ (fun hr0 => extent_of st hr0 x))
        by (intros hr0; apply He1).
      destruct clears, (extent_of st hr x),
        (existsb (fun hr0 => extent_of st hr0 x) q); reflexivity.
Qed.

(** X12: the bitmap after [work].  An address is unmarked after [work] if
    it lies in a region of the skip set that the worker drains, or, under
    [G1VerifyBitmaps], in a region of its compaction queue; the mark of any
    other address is the one it had.  So [work] never marks an address and
    never clears a mark outside its own regions. *)
Theorem work_bitmap c w st st' x :
  work fl c w st = Ok st' ->
  mark_bitmap st' x =
    if (G1VerifyBitmaps fl
        && existsb (fun hr => extent_of st hr x) (compaction_point c w))
       || existsb (fun hr => extent_of st hr x) (drained_skip_set fl c w)
    then false else mark_bitmap st x.
Proof.
  intros H. unfold work in H. inv_bind H. inv_bind H. inv_bind H.
  injection H as <-.
  destruct (for_each_bitmap _ _ compact_region_bitmap _ _ _ Ha) as [He1 Hb1].
  destruct (pinned_pass_Ok fl _ _ _ _ Ha1) as (_ & _ & Hb3 & _).
  simpl. rewrite Hb3. unfold drained_skip_set.
  destruct (0 <? MarkSweepDeadRatio fl).
  - destruct (for_each_bitmap _ _ process_skipping_bitmap _ _ _ Ha0) as [_ Hb2].
    rewrite Hb2, Hb1. simpl.
    rewrite (existsb_pointwise _ (fun hr => extent_of st hr x))
      by (intros hr; apply He1).
    destruct (G1VerifyBitmaps fl),
      (existsb (fun hr => extent_of st hr x) (compaction_point c w)),
      (existsb (fun hr => extent_of st hr x) (skipping_compaction_set c w));
      reflexivity.
  - injection Ha0 as <-. rewrite Hb1. simpl. now rewrite orb_false_r.
Qed.

End Passes.

(** ** What a region compaction leaves alone *)

Section Gaps.
Context {OM : ObjectModel}.
Variable fl : Flags.

Hypothesis oop_size_above : forall m m' obj,
  (forall x, obj <= x -> m' x = m x) -> oop_size m' obj = oop_size m obj.

(** [apply] writes inside the destination of an object that moves, and
    nowhere when the object does not move. *)
Lemma apply_writes_within m obj size m' x :
  apply fl m obj = Ok (size, m') ->
  (forwardee m obj <> NULL ->
   ~ (forwardee m obj <= x < forwardee m obj + Z.of_nat (oop_size m obj))) ->
  m' x = m x.
Proof.
  unfold apply. destruct (Z.eqb_spec (forwardee m obj) NULL) as [E|E].
  - intros H _. now inversion H.
  - intros H Hx. specialize (Hx E). pose proof (oop_size_pos m obj) as Hpos.
    inv_bind H. inv_bind H. inversion H; subst. unfold init_mark.
    rewrite store_ne by lia. apply aligned_conjoint_words_outside. lia.
Qed.

Lemma scan_marked_gaps bm limit m : forall fuel next_addr mc frontier m',
  limit - next_addr <= Z.of_nat fuel ->
  frontier <= next_addr ->
  (forall x, frontier <= x -> mc x = m x) ->
  slides_down fl m frontier (walk_objects fuel bm limit next_addr m) ->
  scan_marked fl fuel bm limit next_addr mc = Ok m' ->
  forall x,
    (forall obj, obj ∈ walk_objects fuel bm limit next_addr m ->
       forwardee m obj <> NULL ->
       ~ (forwardee m obj <= x < forwardee m obj + Z.of_nat (oop_size m obj))) ->
    m' x = mc x.
Proof.
  induction fuel as [|fuel IH];
    intros next_addr mc frontier m' Hfuel Hnext Hagree Hs Hscan x Hx;
    simpl in *; destruct (Z.leb_spec limit next_addr) as [Hl|Hl]; try lia;
    try (now inversion Hscan).
  destruct (is_marked bm next_addr).
  - simpl in Hs. destruct Hs as (Hlo & Hhi & Hdbg & Hs).
    destruct (apply_slides fl oop_size_above m mc frontier next_addr Hagree Hlo Hhi Hdbg)
      as (m1 & Happly & _ & Habove & _).
    rewrite Happly in Hscan. simpl in Hscan.
    pose proof (oop_size_pos m next_addr) as Hpos.
    assert (Hfwd : forwardee mc next_addr = forwardee m next_addr).
    { unfold forwardee, mark. rewrite Hagree by (unfold destination_of in *;
        destruct (forwardee m next_addr =? NULL); lia). reflexivity. }
    assert (Hsize : oop_size mc next_addr = oop_size m next_addr).
    { apply oop_size_above. intros y Hy. apply Hagree.
      unfold destination_of in *. destruct (forwardee m next_addr =? NULL); lia. }
    assert (Hrest : m' x = m1 x).
    { apply (IH (next_addr + Z.of_nat (oop_size m next_addr)) m1
               (destination_of m next_addr + Z.of_nat (oop_size m next_addr)) m');
        auto; try lia.
      intros obj Hin. apply Hx. now right. }
    rewrite Hrest.
    apply (apply_writes_within mc next_addr _ m1 x Happly).
    rewrite Hfwd, Hsize. apply Hx. now left.
  - apply (IH (next_addr + 1) mc frontier m'); auto; lia.
Qed.

(** X14: a region compaction writes only where live objects land.  Under
    the conditions of the sliding compaction, a word that is in the
    destination of no moving live object of the region keeps its value:
    dead objects, the gaps between destinations and the objects that stay
    are not written. *)
Theorem compact_region_writes_destinations hr st r frontier :
  regions st !! hr = Some r ->
  (ASSERT fl = true -> is_pinned r = false /\ is_humongous r = false) ->
  frontier <= bottom r ->
  slides_down fl (heap st) frontier
    (walk_objects (Z.to_nat (top r - bottom r)) (mark_bitmap st) (top r)
       (bottom r) (heap st)) ->
  exists st',
    compact_region fl hr st = Ok st' /\
    forall x,
      (forall obj,
         obj ∈ walk_objects (Z.to_nat (top r - bottom r)) (mark_bitmap st)
                 (top r) (bottom r) (heap st) ->
         forwardee (heap st) obj <> NULL ->
         ~ (forwardee (heap st) obj <= x
            < forwardee (heap st) obj + Z.of_nat (oop_size (heap st) obj))) ->
      heap st' x = heap st x.
Proof.
  intros Hr Ha Hf Hs.
  destruct (scan_marked_slides fl oop_size_above (mark_bitmap st) (top r) (heap st)
              (Z.to_nat (top r - bottom r)) (bottom r) (heap st) frontier)
    as (m' & Hscan & _); auto; try lia.
  assert (H1 : apply_to_marked_objects fl hr st = Ok (set_heap m' st)).
  { unfold apply_to_marked_objects. rewrite (region_at_Some _ _ _ Hr). simpl.
    now rewrite Hscan. }
  rewrite (compact_region_step fl hr st r _ Hr Ha H1).
  eexists. split; [reflexivity|]. simpl. intros x Hx.
  apply (scan_marked_gaps (mark_bitmap st) (top r) (heap st)
           (Z.to_nat (top r - bottom r)) (bottom r) (heap st) frontier m');
    auto; lia.
Qed.

End Gaps.

(** ** Regions that must not be in a compaction queue *)

Section Rejected.
Context {OM : ObjectModel}.
Variable fl : Flags.



End Rejected.

(** ** Assertions only stop runs *)

Lemma for_each_Ok_mono (body body' : nat -> G1State -> Result G1State) :
  (forall hr st st', body hr st = Ok st' -> body' hr st = Ok st') ->
  forall q st st', for_each body q st = Ok st' -> for_each body' q st = Ok st'.
Proof.
  intros Hb. induction q as [|hr q IH]; intros st st' H; simpl in *; [exact H|].
  inv_bind H. rewrite (Hb _ _ _ Ha). simpl. now apply IH.
Qed.

Lemma par_iterate_Ok_mono (cl cl' : nat -> G1State -> Result (bool * G1State)) n start :
  (forall i st x, cl i st = Ok x -> cl' i st = Ok x) ->
  forall counts st st',
    par_iterate cl n start counts st = Ok st' ->
    par_iterate cl' n start counts st = Ok st'.
Proof.
  intros Hc. induction counts as [|count counts IH]; intros st st' H; simpl in *;
    [exact H|].
  destruct (is_region_claimed st ((start + count) mod n)); [now apply IH|].
  inv_bind H. rewrite (Hc _ _ _ Ha). simpl. destruct a as [[] st1]; auto.
Qed.

Section Transparent.
Context {OM : ObjectModel}.
Variable fl : Flags.

Lemma assert_without cond msg : assert (without_asserts fl) cond msg = Ok tt.
Proof. reflexivity. Qed.

Lemma apply_without m obj x :
  apply fl m obj = Ok x -> apply (without_asserts fl) m obj = Ok x.
Proof.
  unfold apply. destruct (forwardee m obj =? NULL); [auto|].
  intros H. inv_bind H. inv_bind H. rewrite !assert_without. exact H.
Qed.

Lemma scan_marked_without bm limit : forall fuel next_addr m m',
  scan_marked fl fuel bm limit next_addr m = Ok m' ->
  scan_marked (without_asserts fl) fuel bm limit next_addr m = Ok m'.
Proof.
  induction fuel as [|fuel IH]; intros next_addr m m' H; simpl in *;
    destruct (limit <=? next_addr); auto.
  destruct (is_marked bm next_addr); [|now apply IH].
  inv_bind H. rewrite (apply_without _ _ _ Ha). simpl.
  destruct a as [size m1]. now apply IH.
Qed.

Lemma compact_region_without hr st st' :
  compact_region fl hr st = Ok st' ->
  compact_region (without_asserts fl) hr st = Ok st'.
Proof.
  unfold compact_region, apply_to_marked_objects. intros H.
  destruct (region_at st hr) as [r| | |]; simpl in *; try discriminate.
  inv_bind H. inv_bind H. inv_bind H. inv_bind Ha1.
  rewrite (scan_marked_without _ _ _ _ _ _ Ha2). simpl.
  injection Ha1 as <-. exact H.
Qed.

Lemma do_heap_region_without r st x :
  do_heap_region fl r st = Ok x -> do_heap_region (without_asserts fl) r st = Ok x.
Proof.
  unfold do_heap_region. intros H.
  destruct (region_at st r) as [hr| | |]; simpl in *; try discriminate.
  destruct (negb (is_pinned hr)); [exact H|].
  inv_bind H. exact H.
Qed.

(** X16: the assertions only stop runs.  A run of [work] or of
    [serial_compaction] that returns in a build with assertions returns the
    same state in the build that differs only in having none. *)
Theorem assertions_transparent c st :
  (forall w st', work fl c w st = Ok st' ->
     work (without_asserts fl) c w st = Ok st') /\
  (forall st', serial_compaction fl c st = Ok st' ->
     serial_compaction (without_asserts fl) c st = Ok st').
Proof.
  split.
  - intros w st' H. unfold work in *. inv_bind H. inv_bind H. inv_bind H.
    rewrite (for_each_Ok_mono _ _ compact_region_without _ _ _ Ha). simpl.
    rewrite Ha0. simpl.
    unfold heap_region_par_iterate_from_worker_offset in *.
    rewrite (par_iterate_Ok_mono _ _ _ _ do_heap_region_without _ _ _ Ha1).
    exact H.
  - intros st'. unfold serial_compaction.
    apply for_each_Ok_mono, compact_region_without.
Qed.

End Transparent.

(** ** The model at work on the small heap *)

#[local] Existing Instance test_layout.

(** The scenario of the design: after the compaction of region 0 the first
    object is at 100 and 101, the third at 102 with a fresh header, and the
    top of the region is 103. *)
Example compact_region_scenario :
  match compact_region debug_build 0 test_state with
  | Ok st' => (map (heap st') [100; 101; 102], top <$> regions st' !! 0%nat,
               state <$> regions st' !! 0%nat, trace st')
  | _ => ([], None, None, [])
  end = ([0; 2; 1], Some 103, Some Compacted, [EvSet 0 Compacted]).
Proof. vm_compute. reflexivity. Qed.

(** With [G1VerifyBitmaps] the bits of the compacted region are cleared. *)
Example compact_region_clears_bitmap :
  match compact_region product_build 0 test_state with
  | Ok st' => map (mark_bitmap st') [100; 105; 110]
  | _ => []
  end = [false; false; true].
Proof. vm_compute. reflexivity. Qed.

(** A whole cycle with worker 1 first. *)
Example full_cycle_scenario :
  match full_cycle debug_build test_plan [1; 0]%nat test_state with
  | Ok st' => (map state (regions st'), trace st')
  | _ => ([], [])
  end = ([Compacted; PinnedReset; Skipped; Compacted],
         [EvSet 2 Skipped; EvVisit 2; EvVisit 3; EvVisit 0; EvVisit 1;
          EvSet 1 PinnedReset; EvLogTask 1;
          EvSet 0 Compacted; EvLogTask 0; EvSet 3 Compacted]).
Proof. vm_compute. reflexivity. Qed.

(** A closure that answers [true] ends the heap iteration after one region. *)
Example par_iterate_stops_early :
  match heap_region_par_iterate_from_worker_offset stop_at_once (fun w => (2 * w)%nat) 0 test_state with
  | Ok st' => (map (claims st') [0; 1; 2; 3]%nat, trace st')
  | _ => ([], [])
  end = ([true; false; false; false], [EvVisit 0]).
Proof. vm_compute. reflexivity. Qed.

(** The same cycle with the region steps of the two workers interleaved:
    region 1 is claimed, and reset, by worker 0 this time. *)
Example interleaved_cycle_scenario :
  match interleaved_cycle debug_build test_plan test_interleaving test_state with
  | Ok st' => (map state (regions st'), writes (trace st'))
  | _ => ([], [])
  end = ([Compacted; PinnedReset; Skipped; Compacted],
         [(2, Skipped); (0, Compacted); (1, PinnedReset); (3, Compacted)]%nat).
Proof. vm_compute. reflexivity. Qed.

(** ** The theorems at work on the small heap *)

Lemma apply_relocates_witness :
  exists m', apply debug_build sliding_memory 10 = Ok (3%nat, m') /\
    m' 9 = 1 /\ m' 10 = 3 /\ m' 11 = 7 /\ m' 12 = 7.
Proof.
  destruct (apply_relocates debug_build sliding_memory 10)
    as (m' & Ha & _ & Hmark & Hw & _ & Hout).
  - vm_compute. discriminate.
  - intros _. split; vm_compute; discriminate.
  - exists m'. split; [exact Ha|]. split; [exact Hmark|].
    split; [apply (Hw 1); vm_compute; split; [discriminate|reflexivity]|].
    split; [apply (Hw 2); vm_compute; split; [discriminate|reflexivity]|].
    apply (Hout 12); [right; vm_compute; discriminate|discriminate].
Defined.

Lemma apply_stationary_witness :
  apply debug_build resting_memory 10 = Ok (3%nat, resting_memory).
Proof. rewrite (apply_stationary debug_build resting_memory 10); reflexivity. Defined.

Lemma apply_self_move_assert_witness :
  apply debug_build self_forwarded_memory 10
  = AssertionFailure "everything in this pass should be moving".
Proof.
  apply (apply_self_move_assert debug_build self_forwarded_memory 10).
  split; [reflexivity|]. split; [vm_compute; discriminate|reflexivity].
Defined.

Lemma work_steps_in_order_witness :
  exists st', work debug_build test_plan 0 test_state = Ok st' /\
    trace st' = [EvSet 0 Compacted; EvVisit 0; EvVisit 1; EvSet 1 PinnedReset;
                 EvVisit 2; EvVisit 3; EvLogTask 0].
Proof.
  destruct (work_steps_in_order debug_build test_plan 0 test_state) as [_ Hrun].
  - intros hr Hhr. apply list_elem_of_singleton in Hhr. subst hr. simpl. lia.
  - intros _ hr Hhr. inversion Hhr.
  - destruct (work debug_build test_plan 0 test_state) as [st'| | |] eqn:E;
      try (vm_compute in E; discriminate).
    exists st'. split; [reflexivity|].
    destruct (Hrun st' eq_refl) as [_ ->]. reflexivity.
Defined.

Lemma compact_region_finish_witness :
  exists st', compact_region debug_build 0 test_state = Ok st' /\
    mark_bitmap st' 105 = true /\
    (state <$> regions st' !! 0%nat) = Some Compacted /\
    (top <$> regions st' !! 0%nat) = Some 103.
Proof.
  destruct (apply_to_marked_objects debug_build 0 test_state) as [st1| | |] eqn:E;
    try (vm_compute in E; discriminate).
  destruct (compact_region_finish debug_build 0 test_state
              (mkHeapRegion 100 110 106 103 106 false false false Unprocessed) st1)
    as (st' & Hrun & _ & Hbm & _ & _ & Hreg & _).
  - reflexivity.
  - intros _. split; reflexivity.
  - exact E.
  - exists st'. split; [exact Hrun|]. split; [|now rewrite Hreg].
    rewrite Hbm. simpl.
    destruct (apply_to_marked_objects_Ok debug_build _ _ _ E) as (r & m1 & _ & _ & ->).
    reflexivity.
Defined.

Lemma process_skipping_metadata_only_witness :
  exists st', process_skipping_compaction_region 2 test_state = Ok st' /\
    heap st' = heap test_state /\
    mark_bitmap st' 120 = false /\
    (state <$> regions st' !! 2%nat) = Some Skipped.
Proof.
  destruct (process_skipping_metadata_only 2 test_state
              (mkHeapRegion 120 130 128 120 128 false false false Unprocessed))
    as (st' & Hrun & Hheap & _ & Hbm & _ & Hreg & _).
  - reflexivity.
  - exists st'. split; [exact Hrun|]. split; [exact Hheap|].
    split; [now rewrite Hbm|now rewrite Hreg].
Defined.

Lemma compact_region_entry_asserts_witness :
  compact_region debug_build 1 test_state
    = AssertionFailure "Should be no pinned region in compaction queue" /\
  compact_region debug_build 0 test_state
    <> AssertionFailure "Should be no pinned region in compaction queue".
Proof.
  split.
  - apply (compact_region_entry_asserts debug_build 1 test_state
             (mkHeapRegion 110 120 120 110 120 true true true Unprocessed));
      [reflexivity|]. split; reflexivity.
  - apply (compact_region_entry_asserts debug_build 0 test_state
             (mkHeapRegion 100 110 106 103 106 false false false Unprocessed));
      reflexivity.
Defined.

Lemma reset_pinned_idempotent_witness :
  exists st1 st2,
    do_heap_region debug_build 1 test_state = Ok (false, st1) /\
    do_heap_region debug_build 1 st1 = Ok (false, st2) /\
    regions st2 = regions st1 /\
    (state <$> regions st2 !! 1%nat) = Some PinnedReset.
Proof.
  destruct (do_heap_region debug_build 1 test_state) as [[b st1]| | |] eqn:E;
    try (vm_compute in E; discriminate).
  destruct (reset_pinned_idempotent debug_build 1 test_state b st1 E)
    as (st2 & H2 & _ & _ & Hreg & _).
  assert (Hb : b = false) by (vm_compute in E; congruence).
  assert (Hs : (state <$> regions st1 !! 1%nat) = Some PinnedReset).
  { vm_compute in E. injection E as _ <-. reflexivity. }
  exists st1, st2. rewrite Hb. split; [reflexivity|]. split; [exact H2|].
  split; [exact Hreg|]. now rewrite Hreg.
Defined.

Lemma reset_pinned_never_stops_witness :
  do_heap_region debug_build 0 test_state = Ok (false, test_state) /\
  ends debug_build
    (heap_region_par_iterate_from_worker_offset (do_heap_region debug_build)
       (fun w => (2 * w)%nat) 1 test_state).
Proof.
  destruct (reset_pinned_never_stops debug_build) as (_ & Hunpinned & Hwalk).
  split.
  - apply (Hunpinned 0%nat test_state
             (mkHeapRegion 100 110 106 103 106 false false false Unprocessed));
      reflexivity.
  - apply (Hwalk (fun w => (2 * w)%nat) 1%nat test_state).
Defined.

Lemma test_plan_valid : valid_plan debug_build test_plan test_state.
Proof.
  split.
  - simpl. lia.
  - refine (bool_decide_unpack _ _). vm_compute. exact I.
  - intros hr Hhr. vm_compute in Hhr.
    repeat (apply elem_of_cons in Hhr as [->|Hhr]; [simpl; lia|]). inversion Hhr.
  - intros hr Hhr. simpl in Hhr.
    destruct hr as [|[|[|[|hr]]]]; try lia; rewrite list_elem_of_In;
      (split; [intros Hp Hin | intros Hin]); simpl in *;
      try discriminate; try reflexivity; try lia; exfalso; apply Hin; auto.
  - simpl. lia.
Defined.

Lemma test_interleaving_ok :
  interleaving
    (map (worker_tasks debug_build test_plan (length (regions test_state)))
       (seq 0 (workers test_plan)))
    test_interleaving.
Proof.
  cbv [map seq worker_tasks test_plan workers compaction_point drained_skip_set
       skipping_compaction_set claimer_offset walk_indices test_interleaving
       debug_build MarkSweepDeadRatio Z.ltb Z.compare app length regions
       test_state test_regions Nat.add Nat.mul].
  simpl.
  repeat first [ apply (interleaving_step [] _ _ [_])
               | apply (interleaving_step [_] _ _ []) ].
  apply interleaving_done. repeat constructor.
Defined.

Lemma cycle_one_outcome_witness :
  (exists st', full_cycle debug_build test_plan [1; 0]%nat test_state = Ok st' /\
     map state (regions st') = [Compacted; PinnedReset; Skipped; Compacted] /\
     forall i, (i < 4)%nat -> exists s, outcomes i (trace st') = [s]) /\
  (exists st', interleaved_cycle debug_build test_plan test_interleaving test_state
               = Ok st' /\
     forall i, (i < 4)%nat -> exists s, outcomes i (trace st') = [s]).
Proof.
  destruct (cycle_one_outcome debug_build test_plan test_state)
    as [Hseq Hpar].
  - exact test_plan_valid.
  - intros i _. reflexivity.
  - split.
    + destruct (Hseq [1; 0]%nat (perm_swap _ _ _)) as [_ Hrun].
      destruct (full_cycle debug_build test_plan [1; 0]%nat test_state)
        as [st'| | |] eqn:E; try (vm_compute in E; discriminate).
      exists st'. split; [reflexivity|].
      split; [vm_compute in E; injection E as <-; reflexivity|].
      destruct (Hrun st' eq_refl) as (tr & Htr & Hreg).
      intros i Hi. simpl in Htr. rewrite Htr.
      destruct (lookup_lt_is_Some_2 test_regions i Hi) as [r Hr].
      destruct (Hreg i r Hr) as (r' & _ & Hout & _). eauto.
    + destruct (Hpar test_interleaving test_interleaving_ok) as [_ Hrun].
      destruct (interleaved_cycle debug_build test_plan test_interleaving test_state)
        as [st'| | |] eqn:E; try (vm_compute in E; discriminate).
      exists st'. split; [reflexivity|].
      destruct (Hrun st' eq_refl) as (tr & Htr & Hreg).
      intros i Hi. simpl in Htr. rewrite Htr.
      destruct (lookup_lt_is_Some_2 test_regions i Hi) as [r Hr].
      destruct (Hreg i r Hr) as (r' & _ & Hout & _). eauto.
Defined.

(** ** The further properties on the small heaps *)

Lemma test_layout_oop_size_above : forall m m' obj,
  (forall x, obj <= x -> m' x = m x) -> oop_size m' obj = oop_size m obj.
Proof. intros m m' obj H. simpl. rewrite H by lia. reflexivity. Qed.

Ltac slides :=
  vm_compute; repeat split; try discriminate; try lia;
  try (intros _ H; exfalso; apply H; reflexivity).

Lemma compact_region_slides_witness :
  exists st', compact_region debug_build 0 sliding_state = Ok st' /\
    Forall (placed sliding_heap (heap st')) [200; 204] /\
    (forall x, x < 200 -> heap st' x = sliding_heap x) /\
    (forall x, 205 <= x -> heap st' x = sliding_heap x).
Proof.
  apply (compact_region_slides debug_build test_layout_oop_size_above 0
           sliding_state
           (mkHeapRegion 200 208 207 205 207 false false false Unprocessed) 200).
  - reflexivity.
  - intros _. split; reflexivity.
  - simpl. lia.
  - slides.
Defined.

Lemma compact_region_stationary_witness :
  exists st', compact_region debug_build 2 test_state = Ok st' /\
    heap st' = test_heap /\
    regions st' !! 2%nat
      = Some (after_compaction
                (mkHeapRegion 120 130 128 120 128 false false false Unprocessed)).
Proof.
  apply (compact_region_stationary debug_build 2 test_state
           (mkHeapRegion 120 130 128 120 128 false false false Unprocessed)).
  - reflexivity.
  - intros _. split; reflexivity.
  - simpl. intros a Ha Hm. unfold is_marked, test_bitmap in Hm.
    assert (a = 120) as -> by lia. reflexivity.
Defined.

Lemma apply_class_assert_witness :
  apply debug_build classless_memory 12 = AssertionFailure "should have a class".
Proof.
  apply (proj1 (apply_class_assert debug_build classless_memory 12)).
  split; [reflexivity|]. split; [vm_compute; discriminate|].
  split; [vm_compute; discriminate|reflexivity].
Defined.

Lemma do_heap_region_assert_witness :
  do_heap_region debug_build 1 test_state
    <> AssertionFailure "must be, otherwise reclaimed earlier" /\
  forall msg, do_heap_region debug_build 0 test_state <> AssertionFailure msg.
Proof.
  split.
  - intros E.
    apply (proj1 (do_heap_region_assert debug_build 1 test_state
             (mkHeapRegion 110 120 120 110 120 true true true Unprocessed)
             eq_refl)) in E.
    destruct E as (_ & _ & _ & E). discriminate E.
  - apply (proj2 (do_heap_region_assert debug_build 0 test_state
             (mkHeapRegion 100 110 106 103 106 false false false Unprocessed)
             eq_refl)).
    reflexivity.
Defined.

Lemma apply_self_move_product_witness :
  exists m', apply product_build self_forwarded_memory 10 = Ok (3%nat, m') /\
    m' 10 = 1 /\ m' 11 = 3 /\ m' 12 = 7.
Proof.
  destruct (apply_self_move_product product_build self_forwarded_memory 10)
    as (m' & Ha & Hmark & Hrest).
  - reflexivity.
  - reflexivity.
  - discriminate.
  - exists m'. split; [exact Ha|]. split; [exact Hmark|].
    split; rewrite Hrest by discriminate; reflexivity.
Defined.

Lemma compact_region_product_witness :
  exists st', compact_region product_build 1 test_state = Ok st' /\
    (state <$> regions st' !! 1%nat) = Some Compacted /\
    trace st' = [EvSet 1 Compacted].
Proof.
  destruct (compact_region_product product_build 1 test_state
              (mkHeapRegion 110 120 120 110 120 true true true Unprocessed))
    as (st' & Hrun & Hregs & _ & Htr).
  - reflexivity.
  - reflexivity.
  - exists st'. split; [exact Hrun|]. split; [now rewrite Hregs|exact Htr].
Defined.


Lemma pinned_pass_effect_witness :
  exists st',
    heap_region_par_iterate_from_worker_offset (do_heap_region debug_build)
      (fun w => (2 * w)%nat) 0 test_state = Ok st' /\
    heap st' = test_heap /\
    (state <$> regions st' !! 1%nat) = Some PinnedReset /\
    regions st' !! 2%nat = regions test_state !! 2%nat.
Proof.
  destruct (heap_region_par_iterate_from_worker_offset
              (do_heap_region debug_build) (fun w => (2 * w)%nat) 0 test_state)
    as [st'| | |] eqn:E; try (vm_compute in E; discriminate).
  destruct (pinned_pass_effect debug_build (fun w => (2 * w)%nat) 0%nat
              test_state st' E) as (Hheap & _ & Hregs).
  exists st'. split; [reflexivity|]. split; [exact Hheap|].
  split.
  - rewrite (Hregs 1%nat
               (mkHeapRegion 110 120 120 110 120 true true true Unprocessed)
               eq_refl).
    reflexivity.
  - rewrite (Hregs 2%nat
               (mkHeapRegion 120 130 128 120 128 false false false Unprocessed)
               eq_refl).
    reflexivity.
Defined.

Lemma work_leaves_other_regions_witness :
  exists st', work debug_build test_plan 0 test_state = Ok st' /\
    regions st' !! 2%nat = regions test_state !! 2%nat.
Proof.
  destruct (work debug_build test_plan 0 test_state) as [st'| | |] eqn:E;
    try (vm_compute in E; discriminate).
  exists st'. split; [reflexivity|].
  apply (work_leaves_other_regions debug_build test_plan 0%nat test_state st' 2%nat
           (mkHeapRegion 120 130 128 120 128 false false false Unprocessed) E).
  - reflexivity.
  - intros Hin. apply list_elem_of_singleton in Hin. discriminate.
  - intros Hin. inversion Hin.
  - reflexivity.
Defined.

Lemma work_heap_after_compactions_witness :
  exists st', work debug_build test_plan 1 test_state = Ok st' /\
    heap st' = test_heap.
Proof.
  destruct (work debug_build test_plan 1 test_state) as [st'| | |] eqn:E;
    try (vm_compute in E; discriminate).
  exists st'. split; [reflexivity|].
  destruct (work_heap_after_compactions debug_build test_plan 1%nat test_state
              st' E) as [_ Hempty].
  apply (Hempty eq_refl).
Defined.

Lemma work_after_work_witness :
  exists st1 st2,
    work debug_build test_plan 0 test_state = Ok st1 /\
    work debug_build test_plan 1 st1 = Ok st2 /\
    trace st2 = trace st1 ++ [EvSet 2 Skipped; EvLogTask 1].
Proof.
  destruct (work debug_build test_plan 0 test_state) as [st1| | |] eqn:E1;
    try (vm_compute in E1; discriminate).
  destruct (work debug_build test_plan 1 st1) as [st2| | |] eqn:E2;
    try (vm_compute in E1; injection E1 as <-; vm_compute in E2; discriminate).
  exists st1, st2. split; [reflexivity|]. split; [exact E2|].
  apply (work_after_work debug_build test_plan 0%nat 1%nat test_state st1 st2 E1 E2).
Defined.

Lemma work_bitmap_witness :
  exists st', work debug_build test_plan 1 test_state = Ok st' /\
    mark_bitmap st' 120 = false /\ mark_bitmap st' 100 = true.
Proof.
  destruct (work debug_build test_plan 1 test_state) as [st'| | |] eqn:E;
    try (vm_compute in E; discriminate).
  exists st'. split; [reflexivity|].
  split.
  - rewrite (work_bitmap debug_build test_plan 1%nat test_state st' 120 E).
    reflexivity.
  - rewrite (work_bitmap debug_build test_plan 1%nat test_state st' 100 E).
    reflexivity.
Defined.

Lemma compaction_queue_slides_witness :
  exists st',
    for_each (compact_region debug_build) [0; 1]%nat queue_state = Ok st' /\
    Forall (placed queue_heap (heap st')) [300; 304; 309] /\
    (forall x, x < 300 -> heap st' x = queue_heap x) /\
    (forall x, 307 <= x -> heap st' x = queue_heap x).
Proof.
  apply (compaction_queue_slides debug_build test_layout_oop_size_above
           [0; 1]%nat queue_state 300).
  simpl. split; [intros _; split; reflexivity|].
  split; [lia|]. split; [slides|].
  split; [repeat constructor; [discriminate | simpl; lia]|].
  split; [intros _; split; reflexivity|].
  split; [vm_compute; discriminate|]. split; [slides|].
  split; [constructor|exact I].
Defined.

Lemma compact_region_writes_destinations_witness :
  exists st', compact_region debug_build 0 sliding_state = Ok st' /\
    heap st' 201 = 2 /\ heap st' 206 = 42.
Proof.
  destruct (compact_region_writes_destinations debug_build
              test_layout_oop_size_above 0 sliding_state
              (mkHeapRegion 200 208 207 205 207 false false false Unprocessed) 200)
    as (st' & Hrun & Hrest).
  - reflexivity.
  - intros _. split; reflexivity.
  - simpl. lia.
  - slides.
  - exists st'. split; [exact Hrun|].
    split; rewrite Hrest; try reflexivity;
      intros obj Hin; change (obj ∈ [200; 204]) in Hin;
      apply elem_of_cons in Hin as [->|Hin];
      try (intros Hne; exfalso; apply Hne; reflexivity);
      apply list_elem_of_singleton in Hin; subst obj; intros _; vm_compute;
      intros [H1 H2]; try (apply H1; reflexivity); discriminate H2.
Defined.


Lemma assertions_transparent_witness :
  exists st', work debug_build test_plan 0 test_state = Ok st' /\
    work (without_asserts debug_build) test_plan 0 test_state = Ok st'.
Proof.
  destruct (work debug_build test_plan 0 test_state) as [st'| | |] eqn:E;
    try (vm_compute in E; discriminate).
  exists st'. split; [reflexivity|].
  apply (proj1 (assertions_transparent debug_build test_plan test_state) 0%nat st' E).
Defined.
